(** * ok-go voice client: the conversation coordinator of cmd/hello/main.go

    A shallow embedding of [start], [stop], [askTheUser] and the response
    receive loop, with the effects of the Go code recorded as a trace.

    The remote service, the audio driver and the capture goroutine are the
    environment: what they answer in a Turn is scripted in a [Turn] record
    and the coordinator is run against a list of such scripts. The capture
    goroutine is embedded on its own as well, against a script of what the
    microphone, the session and the stop channel do at each iteration. *)

From Stdlib Require Import List ZArith String Strings.Byte Bool Arith Lia.
Import ListNotations.

Set Warnings "-abstract-large-number".

Local Open Scope list_scope.

(** ** Messages of the assistant protocol *)

(** The package [embedded] is generated protocol code that main.go imports.
    Its types are given here as far as main.go uses them: the constants it
    names, the fields it reads and writes. *)
Module embedded.

(** [END_OF_UTTERANCE] is the one event type main.go tests for;
    [EVENT_TYPE_UNSPECIFIED] is what [GetEventType] gives otherwise. *)
Inductive EventType :=
| EVENT_TYPE_UNSPECIFIED
| END_OF_UTTERANCE.

(** The two modes the [switch] names, the zero value of the enumeration, and
    any other number on the wire; the last two fall to the [default] case. *)
Inductive MicrophoneMode :=
| MICROPHONE_MODE_UNSPECIFIED
| CLOSE_MICROPHONE
| DIALOG_FOLLOW_ON
| MICROPHONE_MODE_UNRECOGNIZED (wire : Z).

Inductive AudioInEncoding := AudioInConfig_LINEAR16.
Inductive AudioOutEncoding := AudioOutConfig_MP3.

Record AudioInConfig := {
  in_Encoding : AudioInEncoding;
  in_SampleRateHertz : Z
}.

Record AudioOutConfig := {
  out_Encoding : AudioOutEncoding;
  out_SampleRateHertz : Z;
  out_VolumePercentage : Z
}.

(** [ConverseState] is a pointer field of the configuration: [None] is the
    nil pointer, the message then carries no continuation token. *)
Record ConverseConfig := {
  AudioIn : AudioInConfig;
  AudioOut : AudioOutConfig;
  ConverseState : option (list byte)
}.

Record AudioOutData := { AudioData : list byte }.

(** [ConversationState] is a byte slice: [None] is nil, [Some []] is a
    slice that is present and has length zero. *)
Record ConverseResult := {
  SpokenRequestText : string;
  SpokenResponseText : string;
  ConversationState : option (list byte);
  MicMode : MicrophoneMode
}.

(** Modelled from the spec: the declaration of the response message lives
    in the generated protocol package, which main.go only imports. The
    record holds what the four getters used by the receive loop return
    ([GetError], [GetResult], [GetEventType], [GetAudioOut]); following the
    spec, several fields may be present in one event. *)
Record ConverseResponse := {
  Error : option string;
  Result : option ConverseResult;
  Event : EventType;
  AudioOutField : option AudioOutData
}.

End embedded.
Import embedded.

(** What one call of [conversation.Recv()] returns. *)
Inductive Recv :=
| RecvEOF
| RecvErr (err : string)
| RecvMsg (resp : ConverseResponse).

(** ** Effects *)

(** The lines written with [log] and [fmt]. *)
Inductive Line :=
| FailedToAcquireConnection
| ContinuingConversation
| FailedToSetupTheConversation
| FailedToConnectToGoogleAssistant
| FailedToStartAudioOut
| Listening
| CannotGetAResponse (err : string)
| ReceivedError (err : string)
| NilResult
| ResultFromGoogleAssistant
| ResultDump (r : ConverseResult)
| Transcript (s : string)
| GotItSeeYouLater
| ResponseFromTheAssistant (s : string)
| GoogleSaidWeAreDone
| AudioOutFromTheAssistant
| FailedToReadAudioOut
| FailedToWriteToAudioOut
| MicrophoneClosed
| ContinuingDialog
| UnmanagedMicrophoneMode (m : MicrophoneMode)
| BlankLine.

(** The effects of the main flow, in program order. The audio messages the
    capture goroutine sends on its own are not part of it, nor are the
    deferred [Close] calls. *)
Inductive Effect :=
| Log (l : Line)
| WithDeadline (seconds : Z)
| DialGRPC
| Converse
| SendConfig (c : ConverseConfig)
| GoCapture
| OpenPlayback
| PlaybackWrite (frame : list Z)
| MicStop
| Cancel
| PressEnter.

Definition Trace := list Effect.

(** ** Playback of one audio payload (main.go, lines 222-237) *)

(** [make([]int16, 8192)] *)
Definition bufOutLen : nat := 8192.

(** [binary.LittleEndian.Uint16] followed by the conversion to [int16]. *)
Definition int16LE (lo hi : byte) : Z :=
  let u := Z.lor (Z.of_N (Byte.to_N lo)) (Z.shiftl (Z.of_N (Byte.to_N hi)) 8) in
  if (u <? 32768)%Z then u else (u - 65536)%Z.

Fixpoint decodeInt16s (bs : list byte) : list Z :=
  match bs with
  | lo :: hi :: rest => int16LE lo hi :: decodeInt16s rest
  | _ => []
  end.

(** [binary.Read(signal, binary.LittleEndian, buf)] for a buffer of [n]
    samples: it needs [2 * n] bytes from the reader, else it fails with
    [io.EOF] or [io.ErrUnexpectedEOF] and leaves the buffer as it was. On
    success it gives the decoded buffer and what is left of the reader. *)
Definition binaryRead (n : nat) (signal : list byte) : option (list Z * list byte) :=
  if List.length signal <? 2 * n
  then None
  else Some (decodeInt16s (firstn (2 * n) signal), skipn (2 * n) signal).

Section Playback.

(** [n] is [len(bufOut)]; [writeOk k] tells whether the [k]-th call of
    [streamOut.Write()] in this Turn succeeds. *)
Variable n : nat.
Variable writeOk : nat -> bool.

(** The inner [for] loop. [k] counts the calls of [streamOut.Write()] made
    so far. The loop runs once per frame read; [fuel] bounds the number of
    iterations and [None] means it was not enough. *)
Fixpoint playLoop (fuel : nat) (signal : list byte) (k : nat) : option (Trace * nat) :=
  match fuel with
  | O => None
  | S fuel' =>
      match binaryRead n signal with
      | None => Some ([Log FailedToReadAudioOut], k)
      | Some (frame, rest) =>
          if writeOk k
          then match playLoop fuel' rest (S k) with
               | Some (tr, k') => Some (PlaybackWrite frame :: tr, k')
               | None => None
               end
          else Some ([PlaybackWrite frame; Log FailedToWriteToAudioOut], S k)
      end
  end.

End Playback.

(** ** The receive loop (main.go, lines 180-251) *)

(** How the handling of one event leaves the loop body. *)
Inductive Verdict :=
| BreakLoop        (* [break] on io.EOF *)
| Fatal            (* [log.Fatalf]: the process exits with code 1 *)
| StopQuit         (* [stop(true); return] *)
| SignalReturn     (* [micStopCh <- true; return] *)
| StopPrompt       (* [stop(false); return] *)
| OutOfFuel.       (* the model's bound on the playback loop was too small *)

(** The state the loop body works on: the package-level [conversationState]
    (a nil slice is the empty list) and the number of calls of
    [streamOut.Write()] made in this Turn. *)
Record Proc := {
  conversationState : list byte;
  outWrites : nat
}.

(** The state at the start of a Turn's loop. *)
Definition freshProc (cs : list byte) : Proc :=
  {| conversationState := cs; outWrites := 0 |}.

Inductive Ctl (A : Type) :=
| Next (a : A)
| Leave (v : Verdict).
Arguments Next {A} a.
Arguments Leave {A} v.

(** Code of the loop body: it appends to the trace, changes the state and
    either falls through to the next statement or leaves the body. *)
Definition Flow (A : Type) := Proc -> Trace * Proc * Ctl A.

Definition ret {A} (a : A) : Flow A := fun s => ([], s, Next a).

Definition bind {A B} (m : Flow A) (f : A -> Flow B) : Flow B :=
  fun s =>
    match m s with
    | (t1, s1, Next a) =>
        match f a s1 with
        | (t2, s2, r) => (t1 ++ t2, s2, r)
        end
    | (t1, s1, Leave v) => (t1, s1, Leave v)
    end.

Notation "m ;; k" := (bind m (fun _ => k))
  (at level 61, right associativity).

Definition emit (e : Effect) : Flow unit := fun s => ([e], s, Next tt).
Definition logLine (l : Line) : Flow unit := emit (Log l).
Definition leave {A} (v : Verdict) : Flow A := fun s => ([], s, Leave v).
Definition skip : Flow unit := ret tt.
Definition when (b : bool) (m : Flow unit) : Flow unit := if b then m else skip.

(** [conversationState = result.ConversationState] *)
Definition setConversationState (cs : list byte) : Flow unit :=
  fun s => ([], {| conversationState := cs; outWrites := outWrites s |}, Next tt).

Definition nonEmpty (s : string) : bool := negb (String.eqb s EmptyString).

Definition isQuit (transcript : string) : bool :=
  String.eqb transcript "quit"%string || String.eqb transcript "exit"%string.

Definition isEndOfUtterance (e : EventType) : bool :=
  match e with END_OF_UTTERANCE => true | _ => false end.

Section ReceiveLoop.

Variable writeOk : nat -> bool.

(** Lines 222-237. *)
Definition playAudio (audioOut : option AudioOutData) : Flow unit :=
  match audioOut with
  | None => skip
  | Some a =>
      logLine AudioOutFromTheAssistant ;;
      fun s =>
        let signal := AudioData a in
        match playLoop bufOutLen writeOk (S (List.length signal)) signal (outWrites s) with
        | Some (tr, k) =>
            (tr, {| conversationState := conversationState s; outWrites := k |}, Next tt)
        | None => ([], s, Leave OutOfFuel)
        end
  end.

(** Lines 238-250. *)
Definition microphoneMode (micMode : MicrophoneMode) : Flow unit :=
  match micMode with
  | CLOSE_MICROPHONE => logLine MicrophoneClosed ;; leave StopPrompt
  | DIALOG_FOLLOW_ON => logLine ContinuingDialog
  | _ => logLine (UnmanagedMicrophoneMode micMode) ;; leave StopPrompt
  end.

(** Lines 199-250: the body once [result] is known to be non-nil. *)
Definition handleResult (resp : ConverseResponse) (result : ConverseResult) : Flow unit :=
  logLine ResultFromGoogleAssistant ;;
  logLine (ResultDump result) ;;
  (let transcript := SpokenRequestText result in
   when (nonEmpty transcript)
     (logLine (Transcript transcript) ;;
      when (isQuit transcript) (logLine GotItSeeYouLater ;; leave StopQuit))) ;;
  (let msg := SpokenResponseText result in
   when (nonEmpty msg) (logLine (ResponseFromTheAssistant msg))) ;;
  match ConversationState result with
  | Some cs => setConversationState cs
  | None => skip
  end ;;
  when (isEndOfUtterance (Event resp))
    (logLine GoogleSaidWeAreDone ;; leave SignalReturn) ;;
  playAudio (AudioOutField resp) ;;
  microphoneMode (MicMode result).

(** Lines 181-250: one iteration, on what [conversation.Recv()] returned. *)
Definition handleRecv (r : Recv) : Flow unit :=
  match r with
  | RecvEOF => leave BreakLoop
  | RecvErr err => logLine (CannotGetAResponse err) ;; leave Fatal
  | RecvMsg resp =>
      match Error resp with
      | Some err => logLine (ReceivedError err) ;; leave Fatal
      | None =>
          match Result resp with
          | None => logLine NilResult
          | Some result => handleResult resp result
          end
      end
  end.

(** How the loop stands once the scripted receives are used up. *)
Inductive LoopEnd :=
| Ended (v : Verdict)
| Receiving.       (* blocked in [conversation.Recv()] *)

(** The [for] loop over the results of [conversation.Recv()]. *)
Fixpoint receiveLoop (recvs : list Recv) (s : Proc) : Trace * Proc * LoopEnd :=
  match recvs with
  | [] => ([], s, Receiving)
  | r :: later =>
      match handleRecv r s with
      | (t1, s1, Next _) =>
          match receiveLoop later s1 with
          | (t2, s2, e) => (t1 ++ t2, s2, e)
          end
      | (t1, s1, Leave v) => (t1, s1, Ended v)
      end
  end.

End ReceiveLoop.

(** ** One Turn and the recursion through the prompt (main.go, lines 47-178) *)

(** What [portaudio.OpenDefaultStream] and [streamOut.Start()] do for the
    playback stream. The error of the open call is overwritten unchecked, so
    a failed open shows as a panic in [Start] on the nil stream. *)
Inductive PlaybackOpen :=
| PlaybackReady
| PlaybackOpenFailed
| PlaybackStartFailed.

(** The environment of one call of [start]. [micAlive] tells whether the
    capture goroutine of this Turn reaches its [select] and receives the
    value sent on [micStopCh]; it does not when the device failed, since the
    goroutine is then itself inside [stop]. *)
Record Turn := {
  dialOk : bool;
  converseOk : bool;
  sendOk : bool;
  micAlive : bool;
  playback : PlaybackOpen;
  writeOk : nat -> bool;
  recvs : list Recv
}.

(** How a call of [start] ends. *)
Inductive Outcome :=
| Returned              (* the call returned to its caller *)
| Exited (code : Z)     (* [os.Exit(code)], also through [log.Fatalf] *)
| Blocked               (* a send on [micStopCh] that nobody receives *)
| Panicked              (* [panic] in the main flow *)
| Starved               (* the script has no further answer *)
| Unmodelled.           (* [OutOfFuel] reached the top *)

(** Trace, final [conversationState] and outcome. *)
Definition Run := (Trace * list byte * Outcome)%type.

Definition traceOf (r : Run) : Trace := fst (fst r).
Definition stateOf (r : Run) : list byte := snd (fst r).
Definition outcomeOf (r : Run) : Outcome := snd r.

(** Sequencing: what follows runs only if the first part returned. *)
Definition andThen (r : Run) (k : list byte -> Run) : Run :=
  match r with
  | (t, cs, Returned) =>
      match k cs with
      | (t', cs', o) => (t ++ t', cs', o)
      end
  | _ => r
  end.

Definition done (t : Trace) (o : Outcome) : list byte -> Run :=
  fun cs => (t, cs, o).

(** The initial configuration message (lines 84-100). *)
Definition converseConfig (cs : list byte) : ConverseConfig :=
  {| AudioIn := {| in_Encoding := AudioInConfig_LINEAR16;
                   in_SampleRateHertz := 16000 |};
     AudioOut := {| out_Encoding := AudioOutConfig_MP3;
                    out_SampleRateHertz := 16000;
                    out_VolumePercentage := 60 |};
     ConverseState := if (0 <? List.length cs)%nat then Some cs else None |}.

Section Coordinator.

(** [again] is the call of [start] made by [askTheUser]. *)
Variable again : list byte -> Run.

(** Lines 47-54. *)
Definition askTheUser : list byte -> Run :=
  fun cs =>
    andThen (done [PressEnter] Returned cs)
            (fun cs => andThen (again cs) (done [Log BlankLine] Returned)).

(** Lines 64-72. [receiver] tells whether the send on the unbuffered
    [micStopCh] finds the capture goroutine receiving. *)
Definition stop (receiver : bool) (quit : bool) : list byte -> Run :=
  fun cs =>
    if receiver
    then andThen (done [MicStop; Cancel] Returned cs)
                 (if quit then done [] (Exited 0) else askTheUser)
    else done [] Blocked cs.

(** What the statement that left the loop body goes on to do. *)
Definition leaveLoop (mic : bool) (v : Verdict) : list byte -> Run :=
  match v with
  | BreakLoop => done [] Returned
  | Fatal => done [] (Exited 1)
  | StopQuit => stop mic true
  | SignalReturn => if mic then done [MicStop] Returned else done [] Blocked
  | StopPrompt => stop mic false
  | OutOfFuel => done [] Unmodelled
  end.

(** Lines 56-252, for the environment [turn]. *)
Definition runTurn (turn : Turn) : list byte -> Run :=
  fun cs =>
    if negb (dialOk turn)
    then done [WithDeadline 240; DialGRPC; Log FailedToAcquireConnection] Returned cs
    else
      let config := converseConfig cs in
      let t0 := [WithDeadline 240; DialGRPC]
                ++ (if (0 <? List.length cs)%nat then [Log ContinuingConversation] else [])
                ++ [Converse] in
      if negb (converseOk turn)
      then andThen (andThen (done (t0 ++ [Log FailedToSetupTheConversation]) Returned cs)
                            (stop false false))
                   (done [] (Exited 1))
      else if negb (sendOk turn)
      then andThen (andThen (done (t0 ++ [SendConfig config;
                                          Log FailedToConnectToGoogleAssistant]) Returned cs)
                            (stop false false))
                   (done [] (Exited 1))
      else
        let t1 := t0 ++ [SendConfig config; GoCapture; OpenPlayback] in
        match playback turn with
        | PlaybackOpenFailed => done t1 Panicked cs
        | PlaybackStartFailed => done (t1 ++ [Log FailedToStartAudioOut]) Panicked cs
        | PlaybackReady =>
            match receiveLoop (writeOk turn) (recvs turn) (freshProc cs) with
            | (t, s, Receiving) =>
                done (t1 ++ [Log Listening] ++ t) Starved (conversationState s)
            | (t, s, Ended v) =>
                andThen (done (t1 ++ [Log Listening] ++ t) Returned (conversationState s))
                        (leaveLoop (micAlive turn) v)
            end
        end.

End Coordinator.

(** [start()], run against the scripts of this and the later Turns. *)
Fixpoint start (world : list Turn) (cs : list byte) : Run :=
  match world with
  | [] => ([], cs, Starved)
  | turn :: later => runTurn (start later) turn cs
  end.

(** [main()]: the process starts with an empty [conversationState]. *)
Definition main (world : list Turn) : Run := start world [].

(** The exit status of the process: [main] returning is status 0, a panic is
    status 2, and a process that never ends has none. *)
Definition exitStatus (o : Outcome) : option Z :=
  match o with
  | Returned => Some 0%Z
  | Exited c => Some c
  | Panicked => Some 2%Z
  | Blocked | Starved | Unmodelled => None
  end.

(** ** Capture: encoding a buffer (main.go, line 141) *)

(** The conversion [byte(v)]: the low eight bits. *)
Definition byteOf (v : Z) : byte :=
  match Byte.of_N (Z.to_N (v mod 256)) with
  | Some b => b
  | None => x00
  end.

(** [binary.LittleEndian.PutUint16(b, uint16(v))]: [b[0] = byte(u)],
    [b[1] = byte(u >> 8)] for [u] the conversion of [v] to 16 bits. *)
Definition putInt16LE (v : Z) : list byte :=
  let u := (v mod 65536)%Z in
  [byteOf u; byteOf (Z.shiftr u 8)].

(** [binary.Write(&bufWriter, binary.LittleEndian, bufIn)] for a slice of
    [int16]: the samples one after the other, two bytes each. *)
Fixpoint encodeInt16s (samples : list Z) : list byte :=
  match samples with
  | [] => []
  | v :: rest => putInt16LE v ++ encodeInt16s rest
  end.

(** ** The capture goroutine (main.go, lines 118-165) *)

(** [make([]int16, 8196)] *)
Definition bufInLen : nat := 8196.

(** The lines the goroutine logs. *)
Inductive MicLine :=
| FailedToSetTheDefaultStream
| FailedToConnectToTheInputStream
| FailedToReadFromTheDefaultStream
| CouldNotSendAudio
| TurningOffTheMic
| FailedToStopTheInput.

(** The effects of the goroutine, in program order. *)
Inductive MicEffect :=
| MicLog (l : MicLine)
| OpenMic
| StartMic
| ReadMic
| SendAudioIn (payload : list byte)
| StopMic
| CloseMic
| PrintDot.

(** What the environment does during one iteration of the capture loop:
    [micRead] is the content of [bufIn] after [micstream.Read()], or [None]
    when the read fails; [audioSent] tells whether [conversation.Send]
    succeeds; [stopWaiting] tells whether the [select] finds a value to
    receive on [micStopCh]. *)
Record Tick := {
  micRead : option (list Z);
  audioSent : bool;
  stopWaiting : bool
}.

(** How the goroutine stands at the end of its script. On a device failure
    it calls [stop(false)], whose send on [micStopCh] only this goroutine
    could receive: it stays there, and the [panic] after it is not reached. *)
Inductive MicEnd :=
| MicReturned
| MicStuckInStop
| MicReading.

Record Mic := {
  micOpenOk : bool;
  micStartOk : bool;
  micStopOk : bool;
  Debug : bool;
  ticks : list Tick
}.

Section Capture.

Variable mic : Mic.

(** Lines 134-164: the [for] loop. *)
Fixpoint captureLoop (script : list Tick) : list MicEffect * MicEnd :=
  match script with
  | [] => ([], MicReading)
  | tick :: later =>
      match micRead tick with
      | None =>
          ([ReadMic; MicLog FailedToReadFromTheDefaultStream], MicStuckInStop)
      | Some bufIn =>
          let sent :=
            [ReadMic; SendAudioIn (encodeInt16s bufIn)]
            ++ (if audioSent tick then [] else [MicLog CouldNotSendAudio]) in
          if stopWaiting tick
          then (sent ++ [MicLog TurningOffTheMic; StopMic]
                  ++ (if micStopOk mic then [] else [MicLog FailedToStopTheInput])
                  ++ [CloseMic],
                MicReturned)
          else match captureLoop later with
               | (t, e) => (sent ++ (if Debug mic then [PrintDot] else []) ++ t, e)
               end
      end
  end.

(** Lines 118-165. *)
Definition capture : list MicEffect * MicEnd :=
  if negb (micOpenOk mic)
  then ([OpenMic; MicLog FailedToSetTheDefaultStream], MicStuckInStop)
  else if negb (micStartOk mic)
  then ([OpenMic; StartMic; MicLog FailedToConnectToTheInputStream], MicStuckInStop)
  else match captureLoop (ticks mic) with
       | (t, e) => ([OpenMic; StartMic] ++ t, e)
       end.

End Capture.

(** * The vocabulary of the statements *)

(** The [i]-th frame of a payload, in the words of the spec: the bytes from
    [i * 2n] up to [(i + 1) * 2n], read as little-endian 16-bit samples. *)
Definition frameAt (n : nat) (signal : list byte) (i : nat) : list Z :=
  decodeInt16s (firstn (2 * n) (skipn (i * (2 * n)) signal)).

(** The writes of the first [q] frames of a payload, in order. *)
Definition wholeFrames (n : nat) (signal : list byte) (q : nat) : Trace :=
  map (fun i => PlaybackWrite (frameAt n signal i)) (seq 0 q).

(** The lines the body logs for a result, its transcript and its response
    text, and the state after the token statement. *)
Definition resultLines (result : ConverseResult) : Trace :=
  [Log ResultFromGoogleAssistant; Log (ResultDump result)].

Definition transcriptLines (result : ConverseResult) : Trace :=
  if nonEmpty (SpokenRequestText result)
  then [Log (Transcript (SpokenRequestText result))] else [].

Definition responseLines (result : ConverseResult) : Trace :=
  if nonEmpty (SpokenResponseText result)
  then [Log (ResponseFromTheAssistant (SpokenResponseText result))] else [].

Definition storeToken (result : ConverseResult) (s : Proc) : Proc :=
  match ConversationState result with
  | Some cs => {| conversationState := cs; outWrites := outWrites s |}
  | None => s
  end.

(** The playback writes of a trace, in order. *)
Fixpoint playbackWrites (t : Trace) : list (list Z) :=
  match t with
  | [] => []
  | PlaybackWrite frame :: t' => frame :: playbackWrites t'
  | _ :: t' => playbackWrites t'
  end.

(** The Turn gets as far as its receive loop. *)
Definition setupOk (turn : Turn) : Prop :=
  dialOk turn = true /\ converseOk turn = true /\ sendOk turn = true
  /\ playback turn = PlaybackReady.

(** What a Turn does up to the first [conversation.Recv()]. *)
Definition preamble (cs : list byte) : Trace :=
  [WithDeadline 240; DialGRPC]
  ++ (if (0 <? List.length cs)%nat then [Log ContinuingConversation] else [])
  ++ [Converse; SendConfig (converseConfig cs); GoCapture; OpenPlayback; Log Listening].

(** What the body logs up to [stop(true)] for a quit/exit transcript. *)
Definition quitLines (result : ConverseResult) : Trace :=
  resultLines result
  ++ [Log (Transcript (SpokenRequestText result)); Log GotItSeeYouLater].

(** The line [log.Fatalf] writes when a receive is a failure: a stream error
    other than end-of-stream, or an event with the error field set. *)
Definition receiveError (r : Recv) : option Line :=
  match r with
  | RecvEOF => None
  | RecvErr err => Some (CannotGetAResponse err)
  | RecvMsg resp =>
      match Error resp with
      | Some err => Some (ReceivedError err)
      | None => None
      end
  end.

(** The token a configuration made from [cs] carries, in the words of the
    spec: the stored token if it is not empty, none otherwise. *)
Definition tokenOf (cs : list byte) : option (list byte) :=
  match cs with
  | [] => None
  | _ :: _ => Some cs
  end.

(** The line logged when a configuration resumes a dialog. *)
Definition resumeLine (cs : list byte) : Trace :=
  match cs with
  | [] => []
  | _ :: _ => [Log ContinuingConversation]
  end.

(** The line the [switch] on the microphone mode logs, and how it leaves the
    body. *)
Definition micLine (m : MicrophoneMode) : Line :=
  match m with
  | CLOSE_MICROPHONE => MicrophoneClosed
  | DIALOG_FOLLOW_ON => ContinuingDialog
  | _ => UnmanagedMicrophoneMode m
  end.

Definition micCtl (m : MicrophoneMode) : Ctl unit :=
  match m with
  | DIALOG_FOLLOW_ON => Next tt
  | _ => Leave StopPrompt
  end.

(** How the body is left, read off the event alone. *)
Definition ctlOf (r : Recv) : Ctl unit :=
  match r with
  | RecvEOF => Leave BreakLoop
  | RecvErr _ => Leave Fatal
  | RecvMsg resp =>
      match Error resp, Result resp with
      | Some _, _ => Leave Fatal
      | None, None => Next tt
      | None, Some result =>
          if isQuit (SpokenRequestText result) then Leave StopQuit
          else if isEndOfUtterance (Event resp) then Leave SignalReturn
          else micCtl (MicMode result)
      end
  end.

(** Whether the body stores a continuation token when it gets to that
    statement. *)
Definition storesToken (r : Recv) : bool :=
  match r with
  | RecvMsg resp =>
      match Result resp with
      | Some result =>
          match ConversationState result with
          | Some _ => true
          | None => false
          end
      | None => false
      end
  | _ => false
  end.

(** Effects that stay inside the loop body: log lines and playback writes. *)
Definition isLocal (e : Effect) : bool :=
  match e with
  | Log _ | PlaybackWrite _ => true
  | _ => false
  end.

(** A trace of log lines and playback writes only. *)
Definition allLocal (t : Trace) : Prop := forallb isLocal t = true.

(** The stored token once the body is past the token statement. *)
Definition tokenAfter (result : ConverseResult) (s : Proc) : list byte :=
  match ConversationState result with
  | Some cs => cs
  | None => conversationState s
  end.

(** The modes the [switch] has a case for. *)
Definition isManaged (m : MicrophoneMode) : bool :=
  match m with
  | CLOSE_MICROPHONE | DIALOG_FOLLOW_ON => true
  | _ => false
  end.

Definition isClose (m : MicrophoneMode) : bool :=
  match m with
  | CLOSE_MICROPHONE => true
  | _ => false
  end.

(** An event with no receive error, no CLOSE microphone mode and no
    quit/exit transcript. *)
Definition calm (r : Recv) : bool :=
  match r with
  | RecvEOF => true
  | RecvErr _ => false
  | RecvMsg resp =>
      match Error resp, Result resp with
      | Some _, _ => false
      | None, None => true
      | None, Some result =>
          negb (isQuit (SpokenRequestText result)) && negb (isClose (MicMode result))
      end
  end.

(** End-of-stream, or an event with a result that has the END_OF_UTTERANCE
    event type or a microphone mode that is not managed. *)
Definition endsLoop (r : Recv) : bool :=
  match r with
  | RecvEOF => true
  | RecvErr _ => false
  | RecvMsg resp =>
      match Result resp with
      | None => false
      | Some result =>
          isEndOfUtterance (Event resp) || negb (isManaged (MicMode result))
      end
  end.

(** The Turn ended, by another way than quit/exit or a receive error. *)
Definition endOfTurnVerdict (v : Verdict) : Prop :=
  v = BreakLoop \/ v = SignalReturn \/ v = StopPrompt.

(** The ways a Turn ends without a quit/exit transcript and without a
    receive error. *)
Inductive TurnEnd :=
| ByEndOfStream
| ByEndOfUtterance
| ByClose
| ByUnmanagedMode.

(** How the event [r] ends the Turn, if it does so in one of these ways. *)
Definition turnEndOf (r : Recv) : option TurnEnd :=
  match r with
  | RecvEOF => Some ByEndOfStream
  | RecvErr _ => None
  | RecvMsg resp =>
      match Error resp, Result resp with
      | None, Some result =>
          if isQuit (SpokenRequestText result) then None
          else if isEndOfUtterance (Event resp) then Some ByEndOfUtterance
          else match MicMode result with
               | CLOSE_MICROPHONE => Some ByClose
               | DIALOG_FOLLOW_ON => None
               | _ => Some ByUnmanagedMode
               end
      | _, _ => None
      end
  end.

Definition verdictOfEnd (how : TurnEnd) : Verdict :=
  match how with
  | ByEndOfStream => BreakLoop
  | ByEndOfUtterance => SignalReturn
  | ByClose | ByUnmanagedMode => StopPrompt
  end.

(** The values an [int16] holds. *)
Definition isInt16 (v : Z) : Prop := (-32768 <= v < 32768)%Z.

(** The payloads of the audio messages of a capture trace, in order. *)
Fixpoint audioSends (t : list MicEffect) : list (list byte) :=
  match t with
  | [] => []
  | SendAudioIn payload :: t' => payload :: audioSends t'
  | _ :: t' => audioSends t'
  end.

(** The buffers a script delivers, in order. *)
Fixpoint buffersOf (script : list Tick) : list (list Z) :=
  match script with
  | [] => []
  | tick :: later =>
      match micRead tick with
      | Some bufIn => bufIn :: buffersOf later
      | None => buffersOf later
      end
  end.

(** An iteration whose read succeeds and that finds no stop signal. *)
Definition keepsCapturing (tick : Tick) : bool :=
  match micRead tick with
  | Some _ => negb (stopWaiting tick)
  | None => false
  end.

(** Two iterations that differ at most in whether the send succeeds. *)
Definition sameButSend (a b : Tick) : Prop :=
  micRead a = micRead b /\ stopWaiting a = stopWaiting b.

(** What has to stand right before an effect of the main flow: the prompt
    comes right after the stop signal and the cancellation, the cancellation
    right after the stop signal, and a Turn starts either first of all or
    right after the prompt. [before] is what came so far, latest first. *)
Definition okAfter (before : Trace) (e : Effect) : bool :=
  match e with
  | PressEnter =>
      match before with
      | Cancel :: MicStop :: _ => true
      | _ => false
      end
  | Cancel =>
      match before with
      | MicStop :: _ => true
      | _ => false
      end
  | WithDeadline _ =>
      match before with
      | [] | PressEnter :: _ => true
      | _ => false
      end
  | _ => true
  end.

Fixpoint inOrder (before : Trace) (t : Trace) : bool :=
  match t with
  | [] => true
  | e :: t' => okAfter before e && inOrder (e :: before) t'
  end.

(** Effects on which [okAfter] puts no condition. *)
Definition unmarked (e : Effect) : bool :=
  match e with
  | PressEnter | Cancel | WithDeadline _ => false
  | _ => true
  end.

(** Where a Turn may start. *)
Definition startable (before : Trace) : bool :=
  match before with
  | [] | PressEnter :: _ => true
  | _ => false
  end.

(** The line of a failed receive. *)
Definition isFatalLine (l : Line) : bool :=
  match l with
  | CannotGetAResponse _ | ReceivedError _ => true
  | _ => false
  end.

(** * Scripts used as examples *)

Definition healthyTurn (rs : list Recv) : Turn :=
  {| dialOk := true; converseOk := true; sendOk := true; micAlive := true;
     playback := PlaybackReady; writeOk := fun _ => true; recvs := rs |}.

Definition resultOf (transcript : string) (token : option (list byte))
  (mode : MicrophoneMode) : ConverseResult :=
  {| SpokenRequestText := transcript; SpokenResponseText := EmptyString;
     ConversationState := token; MicMode := mode |}.

Definition eventOf (result : option ConverseResult) (e : EventType)
  (audio : option AudioOutData) : ConverseResponse :=
  {| Error := None; Result := result; Event := e; AudioOutField := audio |}.

Definition errorEvent (err : string) : ConverseResponse :=
  {| Error := Some err; Result := None; Event := EVENT_TYPE_UNSPECIFIED;
     AudioOutField := None |}.

Definition quitEvent : ConverseResponse :=
  eventOf (Some (resultOf "quit" (Some [x01; x02]) CLOSE_MICROPHONE))
          END_OF_UTTERANCE (Some {| AudioData := [x00; x00] |}).

Definition onePointFrame : AudioOutData :=
  {| AudioData := repeat x01 16384 ++ [x02; x03] |}.

Definition helloThenClose : ConverseResponse :=
  eventOf (Some (resultOf "hello" (Some [x2a]) CLOSE_MICROPHONE))
          EVENT_TYPE_UNSPECIFIED None.

Definition emptyTokenThenClose : ConverseResponse :=
  eventOf (Some (resultOf "hello" (Some []) CLOSE_MICROPHONE))
          EVENT_TYPE_UNSPECIFIED None.

Definition emptyTokenLines : Trace :=
  resultLines (resultOf "hello" (Some []) CLOSE_MICROPHONE)
  ++ [Log (Transcript "hello"); Log MicrophoneClosed].

Definition helloCloseWithToken : ConverseResponse :=
  eventOf (Some (resultOf "hello" (Some [x01; x02]) CLOSE_MICROPHONE))
          EVENT_TYPE_UNSPECIFIED (Some {| AudioData := [x00; x00] |}).

Definition quitCloseWithToken : ConverseResponse :=
  eventOf (Some (resultOf "quit" (Some [x01; x02]) CLOSE_MICROPHONE))
          EVENT_TYPE_UNSPECIFIED (Some {| AudioData := [x00; x00] |}).

Definition nilResultEvent : ConverseResponse :=
  eventOf None EVENT_TYPE_UNSPECIFIED None.


Definition followOnEvent : ConverseResponse :=
  eventOf (Some (resultOf "hello" None DIALOG_FOLLOW_ON)) EVENT_TYPE_UNSPECIFIED None.

Definition endOfUtteranceEvent : ConverseResponse :=
  eventOf (Some (resultOf "hello" None DIALOG_FOLLOW_ON)) END_OF_UTTERANCE None.

Definition quitFollowOnEvent : ConverseResponse :=
  eventOf (Some (resultOf "quit" None DIALOG_FOLLOW_ON)) EVENT_TYPE_UNSPECIFIED None.

Definition calmScript : list Recv :=
  [RecvMsg followOnEvent; RecvMsg nilResultEvent; RecvMsg endOfUtteranceEvent;
   RecvMsg followOnEvent].

Definition noConnectionTurn : Turn :=
  {| dialOk := false; converseOk := true; sendOk := true; micAlive := true;
     playback := PlaybackReady; writeOk := fun _ => true; recvs := [] |}.

Definition noConversationTurn : Turn :=
  {| dialOk := true; converseOk := false; sendOk := true; micAlive := true;
     playback := PlaybackReady; writeOk := fun _ => true; recvs := [] |}.

Definition noConfigSentTurn : Turn :=
  {| dialOk := true; converseOk := true; sendOk := false; micAlive := true;
     playback := PlaybackReady; writeOk := fun _ => true; recvs := [] |}.

Definition quietMic (script : list Tick) : Mic :=
  {| micOpenOk := true; micStartOk := true; micStopOk := true; Debug := false;
     ticks := script |}.

Definition frameTick (bufIn : list Z) (sent stop : bool) : Tick :=
  {| micRead := Some bufIn; audioSent := sent; stopWaiting := stop |}.

Definition failedReadTick : Tick :=
  {| micRead := None; audioSent := true; stopWaiting := false |}.

Definition steadyBuffer : list Z := repeat 7%Z 8196.

Definition steadyMic : Mic :=
  quietMic [frameTick steadyBuffer true true].

Definition threeFrames : AudioOutData :=
  {| AudioData := repeat x01 49152 |}.

(** A device whose second write fails. *)
Definition secondWriteFails (k : nat) : bool :=
  negb (Nat.eqb k 1).

Definition tokenFollowOn (token : list byte) : ConverseResponse :=
  eventOf (Some (resultOf "hello" (Some token) DIALOG_FOLLOW_ON))
          EVENT_TYPE_UNSPECIFIED None.

Definition tokenScript : list Recv :=
  [RecvMsg (tokenFollowOn [x01]); RecvMsg (tokenFollowOn [x02]);
   RecvMsg followOnEvent; RecvEOF].

(** A Turn whose capture goroutine has failed on the device and is itself
    inside [stop(false)]: it takes no stop signal. *)
Definition deadMicTurn (rs : list Recv) : Turn :=
  {| dialOk := true; converseOk := true; sendOk := true; micAlive := false;
     playback := PlaybackReady; writeOk := fun _ => true; recvs := rs |}.

Definition quitWithError : ConverseResponse :=
  {| Error := Some "x"%string;
     Result := Some (resultOf "quit" None DIALOG_FOLLOW_ON);
     Event := EVENT_TYPE_UNSPECIFIED; AudioOutField := None |}.

(** One frame of the playback buffer, and three of them. *)
Definition oneFrame : AudioOutData := {| AudioData := repeat x01 16384 |}.

Definition oneFrameNoResult : ConverseResponse :=
  eventOf None EVENT_TYPE_UNSPECIFIED (Some oneFrame).

Definition oneFrameEndOfUtterance : ConverseResponse :=
  eventOf (Some (resultOf "hello" None DIALOG_FOLLOW_ON)) END_OF_UTTERANCE (Some oneFrame).

Definition oneFrameFollowOn : ConverseResponse :=
  eventOf (Some (resultOf "hello" None DIALOG_FOLLOW_ON)) EVENT_TYPE_UNSPECIFIED
          (Some oneFrame).

(** * Properties *)

(** ** The playback loop *)

Section PlaybackFacts.

Variable n : nat.
Variable writeOk : nat -> bool.
Hypothesis n_pos : 0 < n.

Lemma binaryRead_short (signal : list byte) :
  List.length signal < 2 * n -> binaryRead n signal = None.
Proof.
  intros H. unfold binaryRead.
  destruct (Nat.ltb_spec (List.length signal) (2 * n)) as [_ | Hge]; [reflexivity | lia].
Qed.

Lemma binaryRead_frame (signal : list byte) :
  2 * n <= List.length signal ->
  binaryRead n signal = Some (frameAt n signal 0, skipn (2 * n) signal).
Proof.
  intros H. unfold binaryRead, frameAt.
  destruct (Nat.ltb_spec (List.length signal) (2 * n)) as [Hlt | _]; [lia | reflexivity].
Qed.

Lemma frameAt_skip (signal : list byte) (i : nat) :
  frameAt n (skipn (2 * n) signal) i = frameAt n signal (S i).
Proof.
  unfold frameAt. rewrite skipn_skipn.
  replace (i * (2 * n) + 2 * n) with (S i * (2 * n)) by lia.
  reflexivity.
Qed.

Lemma wholeFrames_step (signal : list byte) (q : nat) :
  wholeFrames n signal (S q)
  = PlaybackWrite (frameAt n signal 0) :: wholeFrames n (skipn (2 * n) signal) q.
Proof.
  unfold wholeFrames. cbn [seq map]. f_equal.
  rewrite <- seq_shift, map_map.
  apply map_ext. intros i. now rewrite frameAt_skip.
Qed.

(** The bound [S (length signal)] is enough for the loop to end. *)
Lemma playLoop_total (fuel : nat) :
  forall signal k,
    List.length signal < fuel ->
    exists tr k', playLoop n writeOk fuel signal k = Some (tr, k') /\ k <= k'.
Proof.
  induction fuel as [| fuel IH]; intros signal k Hlen; [lia |].
  cbn [playLoop].
  destruct (Nat.lt_ge_cases (List.length signal) (2 * n)) as [Hshort | Hfull].
  - rewrite binaryRead_short by assumption. eauto.
  - rewrite binaryRead_frame by assumption.
    destruct (writeOk k); [| eauto].
    destruct (IH (skipn (2 * n) signal) (S k)) as (tr & k' & -> & Hk).
    + rewrite length_skipn. lia.
    + exists (PlaybackWrite (frameAt n signal 0) :: tr), k'. split; [reflexivity | lia].
Qed.

(** With a device that takes every write, a payload of [q] whole frames
    and [r] further bytes is played as [q] writes, one per frame and in
    the order of the bytes; the loop then ends on the failed read. *)
Lemma playLoop_frames (q : nat) :
  (forall j, writeOk j = true) ->
  forall signal r fuel k,
    List.length signal = q * (2 * n) + r ->
    r < 2 * n ->
    q < fuel ->
    playLoop n writeOk fuel signal k
    = Some (wholeFrames n signal q ++ [Log FailedToReadAudioOut], k + q).
Proof.
  intros Hw. induction q as [| q IH]; intros signal r fuel k Hlen Hr Hfuel.
  - destruct fuel as [| fuel]; [lia |]. cbn [playLoop].
    rewrite binaryRead_short by lia.
    now rewrite Nat.add_0_r.
  - destruct fuel as [| fuel]; [lia |]. cbn [playLoop].
    rewrite binaryRead_frame by lia.
    rewrite Hw.
    rewrite (IH (skipn (2 * n) signal) r fuel (S k)).
    + rewrite wholeFrames_step. cbn [app]. do 2 f_equal. lia.
    + rewrite length_skipn. lia.
    + assumption.
    + lia.
Qed.

End PlaybackFacts.

Lemma bufOutLen_pos : 0 < bufOutLen.
Proof. apply Nat.ltb_lt. vm_compute. reflexivity. Qed.

(** ** The loop body, case by case *)

Ltac flow :=
  unfold bind, when, logLine, emit, leave, skip, ret, setConversationState.

Lemma isQuit_nonEmpty (s : string) : isQuit s = true -> nonEmpty s = true.
Proof.
  unfold isQuit, nonEmpty. intros H.
  apply orb_true_iff in H as [H | H]; apply String.eqb_eq in H; subst; reflexivity.
Qed.

Lemma isQuit_spec (s : string) :
  isQuit s = true <-> s = "quit"%string \/ s = "exit"%string.
Proof.
  unfold isQuit. rewrite orb_true_iff, !String.eqb_eq. reflexivity.
Qed.

Lemma playbackWrites_app (t1 t2 : Trace) :
  playbackWrites (t1 ++ t2) = playbackWrites t1 ++ playbackWrites t2.
Proof.
  induction t1 as [| e t1 IH]; [reflexivity |].
  destruct e; cbn [app playbackWrites]; rewrite IH; reflexivity.
Qed.

Section BodyFacts.

Variable writeOk : nat -> bool.

(** The playback of a payload always falls through to the microphone
    mode, and leaves [conversationState] alone. *)
Lemma playAudio_next (audioOut : option AudioOutData) (s : Proc) :
  exists t k,
    playAudio writeOk audioOut s
    = (t, {| conversationState := conversationState s; outWrites := k |}, Next tt)
    /\ outWrites s <= k.
Proof.
  destruct audioOut as [a |]; cbn [playAudio].
  - flow.
    destruct (playLoop_total bufOutLen writeOk bufOutLen_pos
                (S (List.length (AudioData a))) (AudioData a) (outWrites s))
      as (tr & k & Hrun & Hk); [lia |].
    rewrite Hrun. exists (Log AudioOutFromTheAssistant :: tr), k. split; [reflexivity | exact Hk].
  - flow. exists [], (outWrites s). destruct s; split; [reflexivity | cbn; lia].
Qed.

Lemma handleResult_quit (resp : ConverseResponse) (result : ConverseResult) (s : Proc) :
  isQuit (SpokenRequestText result) = true ->
  handleResult writeOk resp result s
  = (resultLines result
       ++ [Log (Transcript (SpokenRequestText result)); Log GotItSeeYouLater],
     s, Leave StopQuit).
Proof.
  intros Hq. unfold handleResult. flow.
  rewrite (isQuit_nonEmpty _ Hq), Hq. reflexivity.
Qed.

Lemma handleResult_endOfUtterance (resp : ConverseResponse) (result : ConverseResult) (s : Proc) :
  isQuit (SpokenRequestText result) = false ->
  Event resp = END_OF_UTTERANCE ->
  handleResult writeOk resp result s
  = (resultLines result ++ transcriptLines result ++ responseLines result
       ++ [Log GoogleSaidWeAreDone],
     storeToken result s, Leave SignalReturn).
Proof.
  intros Hq He. unfold handleResult, transcriptLines, responseLines, storeToken. flow.
  rewrite Hq, He.
  destruct (nonEmpty (SpokenRequestText result)), (nonEmpty (SpokenResponseText result)),
    (ConversationState result); reflexivity.
Qed.

Lemma handleResult_through (resp : ConverseResponse) (result : ConverseResult) (s : Proc) :
  isQuit (SpokenRequestText result) = false ->
  Event resp <> END_OF_UTTERANCE ->
  forall ta sa tm sm c,
    playAudio writeOk (AudioOutField resp) (storeToken result s) = (ta, sa, Next tt) ->
    microphoneMode (MicMode result) sa = (tm, sm, c) ->
    handleResult writeOk resp result s
    = (resultLines result ++ transcriptLines result ++ responseLines result ++ ta ++ tm,
       sm, c).
Proof.
  intros Hq He ta sa tm sm c Ha Hm.
  assert (Hev : isEndOfUtterance (Event resp) = false)
    by (destruct (Event resp); [reflexivity | congruence]).
  unfold handleResult, transcriptLines, responseLines, storeToken in *. flow.
  rewrite Hq, Hev.
  destruct (nonEmpty (SpokenRequestText result)), (nonEmpty (SpokenResponseText result)),
    (ConversationState result);
    cbv beta iota; cbn [app]; rewrite Ha; cbv beta iota; rewrite Hm; reflexivity.
Qed.

End BodyFacts.

(** ** The loop over a script *)

Section LoopFacts.

Variable writeOk : nat -> bool.

(** A prefix of the script over which the loop keeps receiving can be
    run first. *)
Lemma receiveLoop_app (pre rest : list Recv) :
  forall s t s',
    receiveLoop writeOk pre s = (t, s', Receiving) ->
    receiveLoop writeOk (pre ++ rest) s
    = match receiveLoop writeOk rest s' with
      | (t2, s2, e) => (t ++ t2, s2, e)
      end.
Proof.
  induction pre as [| r pre IH]; intros s t s' Hpre.
  - cbn in Hpre. injection Hpre as <- <-.
    cbn [app]. destruct (receiveLoop writeOk rest s) as [[t2 s2] e]. reflexivity.
  - cbn [app receiveLoop] in *.
    destruct (handleRecv writeOk r s) as [[t1 s1] [[] | v]]; [| discriminate].
    destruct (receiveLoop writeOk pre s1) as [[t2 s2] e] eqn:Hrun.
    injection Hpre as <- <- ->.
    rewrite (IH _ _ _ Hrun).
    destruct (receiveLoop writeOk rest s2) as [[t3 s3] e3].
    now rewrite app_assoc.
Qed.

(** The first event that leaves the body ends the loop; what the script
    holds after it is never received. *)
Lemma receiveLoop_leave (pre post : list Recv) (r : Recv) :
  forall s t s' tr s'' v,
    receiveLoop writeOk pre s = (t, s', Receiving) ->
    handleRecv writeOk r s' = (tr, s'', Leave v) ->
    receiveLoop writeOk (pre ++ r :: post) s = (t ++ tr, s'', Ended v).
Proof.
  intros s t s' tr s'' v Hpre Hr.
  rewrite (receiveLoop_app pre (r :: post) _ _ _ Hpre).
  cbn [receiveLoop]. rewrite Hr. reflexivity.
Qed.

End LoopFacts.

(** ** A Turn whose setup succeeds *)

Lemma start_ended (turn : Turn) (later : list Turn) (cs : list byte) :
  setupOk turn ->
  forall t s v,
    receiveLoop (writeOk turn) (recvs turn) (freshProc cs)
    = (t, s, Ended v) ->
    start (turn :: later) cs
    = andThen (done (preamble cs ++ t) Returned (conversationState s))
              (leaveLoop (start later) (micAlive turn) v).
Proof.
  intros (Hd & Hc & Hs & Hp) t s v Hloop.
  cbn [start]. unfold runTurn. rewrite Hd, Hc, Hs, Hp, Hloop. cbn [negb].
  unfold preamble. destruct (0 <? List.length cs)%nat; reflexivity.
Qed.

Lemma start_receiving (turn : Turn) (later : list Turn) (cs : list byte) :
  setupOk turn ->
  forall t s,
    receiveLoop (writeOk turn) (recvs turn) (freshProc cs)
    = (t, s, Receiving) ->
    start (turn :: later) cs = (preamble cs ++ t, conversationState s, Starved).
Proof.
  intros (Hd & Hc & Hs & Hp) t s Hloop.
  cbn [start]. unfold runTurn. rewrite Hd, Hc, Hs, Hp, Hloop. cbn [negb].
  unfold preamble, done. destruct (0 <? List.length cs)%nat; reflexivity.
Qed.

(** A Turn that gets as far as sending its configuration sends the one made
    from the [conversationState] it was started with. *)
Lemma start_config (turn : Turn) (later : list Turn) (cs : list byte) :
  dialOk turn = true ->
  converseOk turn = true ->
  exists t,
    traceOf (start (turn :: later) cs)
    = [WithDeadline 240; DialGRPC]
      ++ (if (0 <? List.length cs)%nat then [Log ContinuingConversation] else [])
      ++ [Converse; SendConfig (converseConfig cs)] ++ t.
Proof.
  intros Hd Hc. cbn [start]. unfold runTurn. rewrite Hd, Hc. cbn [negb].
  unfold traceOf, andThen, done, stop.
  destruct (0 <? List.length cs)%nat, (sendOk turn); cbn [negb app fst];
    try (eexists; reflexivity);
    destruct (playback turn); try (eexists; reflexivity);
    destruct (receiveLoop _ _ _) as [[t s] [v |]]; try (eexists; reflexivity);
    destruct (leaveLoop (start later) (micAlive turn) v (conversationState s))
      as [[t' cs'] o];
    eexists; cbn [app fst]; reflexivity.
Qed.

(** ** Quit and exit *)

(** A quit/exit transcript in a Turn whose capture task takes the stop
    signal: the run ends in [os.Exit(0)] right after [stop(true)]. *)
Lemma start_quit (turn : Turn) (later : list Turn) (cs : list byte)
  (pre post : list Recv) (resp : ConverseResponse) (result : ConverseResult)
  (tpre : Trace) (spre : Proc) :
  setupOk turn ->
  micAlive turn = true ->
  recvs turn = pre ++ RecvMsg resp :: post ->
  receiveLoop (writeOk turn) pre (freshProc cs) = (tpre, spre, Receiving) ->
  Error resp = None ->
  Result resp = Some result ->
  isQuit (SpokenRequestText result) = true ->
  start (turn :: later) cs
  = (preamble cs ++ tpre ++ quitLines result ++ [MicStop; Cancel],
     conversationState spre, Exited 0).
Proof.
  intros Hsetup Hmic Hrecvs Hpre Herr Hres Hq.
  assert (Hbody :
    handleRecv (writeOk turn) (RecvMsg resp) spre = (quitLines result, spre, Leave StopQuit)).
  { cbn [handleRecv]. rewrite Herr, Hres. now apply handleResult_quit. }
  rewrite (start_ended turn later cs Hsetup (tpre ++ quitLines result) spre StopQuit).
  - cbn [leaveLoop]. unfold stop, andThen, done. rewrite Hmic.
    rewrite ?app_nil_r, <- ?app_assoc. reflexivity.
  - rewrite Hrecvs. now apply receiveLoop_leave with (s' := spre).
Qed.

(** C1, as the code has it. An event with no error field whose transcript
    is exactly "quit" or "exit", handled while the capture task takes the
    stop signal, ends the process with exit code 0: the body leaves right
    after the transcript is logged, with [conversationState] and the
    playback device untouched, so no other field of the event is acted on;
    [stop(true)] signals the capture task, cancels the context and exits,
    and neither the rest of the stream nor a later Turn is looked at. *)
Theorem quit_transcript_exits_process :
  forall (turn : Turn) (later : list Turn) (cs : list byte)
         (pre post : list Recv) (resp : ConverseResponse) (result : ConverseResult)
         (tpre : Trace) (spre : Proc),
    setupOk turn ->
    micAlive turn = true ->
    recvs turn = pre ++ RecvMsg resp :: post ->
    receiveLoop (writeOk turn) pre (freshProc cs) = (tpre, spre, Receiving) ->
    Error resp = None ->
    Result resp = Some result ->
    SpokenRequestText result = "quit"%string \/ SpokenRequestText result = "exit"%string ->
    handleRecv (writeOk turn) (RecvMsg resp) spre = (quitLines result, spre, Leave StopQuit)
    /\ start (turn :: later) cs
       = (preamble cs ++ tpre ++ quitLines result ++ [MicStop; Cancel],
          conversationState spre, Exited 0).
Proof.
  intros turn later cs pre post resp result tpre spre Hsetup Hmic Hrecvs Hpre Herr Hres Hq.
  apply isQuit_spec in Hq.
  split.
  - cbn [handleRecv]. rewrite Herr, Hres. now apply handleResult_quit.
  - now apply (start_quit turn later cs pre post resp result tpre spre).
Qed.

Lemma quit_transcript_exits_process_witness :
  start [healthyTurn [RecvMsg quitEvent; RecvEOF]; healthyTurn [RecvEOF]] []
  = (preamble [] ++ [] ++ quitLines (resultOf "quit" (Some [x01; x02]) CLOSE_MICROPHONE)
       ++ [MicStop; Cancel],
     [], Exited 0).
Proof.
  apply (quit_transcript_exits_process
           (healthyTurn [RecvMsg quitEvent; RecvEOF]) [healthyTurn [RecvEOF]] []
           [] [RecvEOF] quitEvent (resultOf "quit" (Some [x01; x02]) CLOSE_MICROPHONE)
           [] (freshProc [])).
  - repeat split.
  - reflexivity.
  - reflexivity.
  - reflexivity.
  - reflexivity.
  - reflexivity.
  - left. reflexivity.
Defined.

(** The sentence of the spec does not hold for every event with such a
    transcript: the error field is looked at first, and an event that has it
    ends the process through [log.Fatalf], with exit code 1, its transcript
    unread; and when the capture goroutine is no longer there to receive,
    [stop(true)] stays in the send on [micStopCh] and no exit is reached. *)
Lemma quit_transcript_without_exit_zero :
  start [healthyTurn [RecvMsg quitWithError; RecvEOF]] []
  = (preamble [] ++ [Log (ReceivedError "x")], [], Exited 1)
  /\ start [deadMicTurn [RecvMsg quitFollowOnEvent; RecvEOF]] []
     = (preamble [] ++ quitLines (resultOf "quit" None DIALOG_FOLLOW_ON), [], Blocked).
Proof. split; reflexivity. Qed.

(** ** Receive errors *)

(** C4. A stream-level receive failure or an event with an error field
    ends the process on the spot, with exit code 1: the failure is logged,
    nothing else of the event is handled (no playback write, no state
    change), the events after it are never received, and no later Turn is
    started. *)
Theorem receive_error_is_fatal :
  forall (turn : Turn) (later : list Turn) (cs : list byte)
         (pre post : list Recv) (r : Recv) (line : Line)
         (tpre : Trace) (spre : Proc),
    setupOk turn ->
    recvs turn = pre ++ r :: post ->
    receiveLoop (writeOk turn) pre (freshProc cs) = (tpre, spre, Receiving) ->
    receiveError r = Some line ->
    handleRecv (writeOk turn) r spre = ([Log line], spre, Leave Fatal)
    /\ start (turn :: later) cs
       = (preamble cs ++ tpre ++ [Log line], conversationState spre, Exited 1).
Proof.
  intros turn later cs pre post r line tpre spre Hsetup Hrecvs Hpre Hline.
  assert (Hbody : handleRecv (writeOk turn) r spre = ([Log line], spre, Leave Fatal)).
  { destruct r as [| err | resp]; cbn in Hline.
    - discriminate.
    - injection Hline as <-. reflexivity.
    - cbn [handleRecv]. destruct (Error resp) as [err |]; [| discriminate].
      injection Hline as <-. reflexivity. }
  split; [exact Hbody |].
  rewrite (start_ended turn later cs Hsetup (tpre ++ [Log line]) spre Fatal).
  - cbn [leaveLoop]. unfold andThen, done.
    rewrite ?app_nil_r, <- ?app_assoc. reflexivity.
  - rewrite Hrecvs. now apply receiveLoop_leave with (s' := spre).
Qed.

Lemma receive_error_is_fatal_witness :
  start [healthyTurn [RecvMsg (errorEvent "x");
                      RecvMsg (eventOf None EVENT_TYPE_UNSPECIFIED
                                 (Some {| AudioData := [x00; x00] |}))];
         healthyTurn [RecvEOF]] []
  = (preamble [] ++ [] ++ [Log (ReceivedError "x")], [], Exited 1).
Proof.
  apply (receive_error_is_fatal
           (healthyTurn [RecvMsg (errorEvent "x");
                         RecvMsg (eventOf None EVENT_TYPE_UNSPECIFIED
                                    (Some {| AudioData := [x00; x00] |}))])
           [healthyTurn [RecvEOF]] [] []
           [RecvMsg (eventOf None EVENT_TYPE_UNSPECIFIED (Some {| AudioData := [x00; x00] |}))]
           (RecvMsg (errorEvent "x")) (ReceivedError "x") [] (freshProc [])).
  - repeat split.
  - reflexivity.
  - reflexivity.
  - reflexivity.
Defined.

(** ** Playback by frames *)

Lemma decodeInt16s_length (n : nat) :
  forall bs, List.length bs = 2 * n -> List.length (decodeInt16s bs) = n.
Proof.
  induction n as [| n IH]; intros bs Hlen.
  - destruct bs; [reflexivity | discriminate].
  - destruct bs as [| lo [| hi rest]]; cbn [List.length] in Hlen; try lia.
    cbn [decodeInt16s List.length]. f_equal. apply IH. lia.
Qed.

Lemma frameAt_length (n : nat) (signal : list byte) (i : nat) :
  S i * (2 * n) <= List.length signal ->
  List.length (frameAt n signal i) = n.
Proof.
  intros Hlen. unfold frameAt. apply decodeInt16s_length.
  rewrite length_firstn, length_skipn. rewrite Nat.mul_succ_l in Hlen. lia.
Qed.

(** The inner loop on its own. With a playback device that takes every
    write, an audio payload of
    [q] whole frames of 8192 16-bit samples (16384 bytes each) followed by
    [r] bytes, [r] less than a frame, is played by exactly [q] calls of
    [streamOut.Write()], one after the other, the [i]-th with the [i]-th
    frame of the payload; a payload whose length is a multiple of the frame
    size is the case [r = 0]. Each write carries a full buffer of 8192
    samples. The [r] bytes left over are read by no write: the frames
    written are those of the first [q] frames' worth of bytes. *)
Theorem audio_payload_played_frame_by_frame :
  forall (writeOk : nat -> bool) (a : AudioOutData) (s : Proc) (q r : nat),
    (forall j, writeOk j = true) ->
    List.length (AudioData a) = q * (2 * bufOutLen) + r ->
    r < 2 * bufOutLen ->
    exists t,
      playAudio writeOk (Some a) s
      = (t, {| conversationState := conversationState s; outWrites := outWrites s + q |},
         Next tt)
      /\ playbackWrites t = map (frameAt bufOutLen (AudioData a)) (seq 0 q)
      /\ List.length (playbackWrites t) = q
      /\ (forall frame, In frame (playbackWrites t) -> List.length frame = bufOutLen)
      /\ playbackWrites t
         = map (frameAt bufOutLen (firstn (q * (2 * bufOutLen)) (AudioData a))) (seq 0 q).
Proof.
  intros writeOk a s q r Hw Hlen Hr.
  exists (Log AudioOutFromTheAssistant
            :: wholeFrames bufOutLen (AudioData a) q ++ [Log FailedToReadAudioOut]).
  assert (Hwrites :
    playbackWrites (Log AudioOutFromTheAssistant
                      :: wholeFrames bufOutLen (AudioData a) q ++ [Log FailedToReadAudioOut])
    = map (frameAt bufOutLen (AudioData a)) (seq 0 q)).
  { cbn [playbackWrites]. rewrite playbackWrites_app. cbn [playbackWrites].
    rewrite app_nil_r. unfold wholeFrames.
    induction (seq 0 q) as [| i l IH]; [reflexivity |].
    cbn [map playbackWrites]. now rewrite IH. }
  split; [| split; [exact Hwrites | split; [| split]]].
  - cbn [playAudio]. flow.
    rewrite (playLoop_frames bufOutLen writeOk bufOutLen_pos q Hw (AudioData a) r);
      [reflexivity | exact Hlen | exact Hr |].
    pose proof bufOutLen_pos. nia.
  - rewrite Hwrites, length_map, length_seq. reflexivity.
  - rewrite Hwrites. intros frame Hin.
    apply in_map_iff in Hin as (i & <- & Hi). apply in_seq in Hi.
    apply frameAt_length. rewrite Hlen.
    assert (Hle : S i * (2 * bufOutLen) <= q * (2 * bufOutLen))
      by (apply Nat.mul_le_mono_r; lia).
    lia.
  - rewrite Hwrites. apply map_ext_in. intros i Hi. apply in_seq in Hi.
    unfold frameAt. f_equal.
    rewrite skipn_firstn_comm, firstn_firstn. f_equal.
    symmetry. apply Nat.min_l.
    generalize (2 * bufOutLen). intros b.
    assert (Hle : S i * b <= q * b) by (apply Nat.mul_le_mono_r; lia).
    rewrite Nat.mul_succ_l in Hle. lia.
Qed.

Lemma audio_payload_played_frame_by_frame_witness :
  exists t,
    playAudio (fun _ => true) (Some onePointFrame) (freshProc [])
    = (t, {| conversationState := conversationState (freshProc []);
             outWrites := outWrites (freshProc []) + 1 |}, Next tt)
    /\ playbackWrites t = map (frameAt bufOutLen (AudioData onePointFrame)) (seq 0 1)
    /\ List.length (playbackWrites t) = 1
    /\ (forall frame, In frame (playbackWrites t) -> List.length frame = bufOutLen)
    /\ playbackWrites t
       = map (frameAt bufOutLen (firstn (1 * (2 * bufOutLen)) (AudioData onePointFrame)))
             (seq 0 1).
Proof.
  apply (audio_payload_played_frame_by_frame
           (fun _ => true) onePointFrame (freshProc []) 1 2).
  - reflexivity.
  - vm_compute. reflexivity.
  - apply Nat.ltb_lt. vm_compute. reflexivity.
Defined.

(** ** From one Turn to the next *)

Lemma traceOf_andThen (r : Run) (k : list byte -> Run) :
  exists tail, traceOf (andThen r k) = traceOf r ++ tail.
Proof.
  destruct r as [[t cs] o]. unfold andThen, traceOf.
  destruct o; cbn [fst]; try (exists []; now rewrite app_nil_r).
  destruct (k cs) as [[t' cs'] o']. exists t'. reflexivity.
Qed.

Lemma andThen_done (t : Trace) (cs : list byte) (k : list byte -> Run) :
  andThen (done t Returned cs) k
  = (t ++ traceOf (k cs), stateOf (k cs), outcomeOf (k cs)).
Proof.
  unfold andThen, done, traceOf, stateOf, outcomeOf.
  destruct (k cs) as [[t' cs'] o]. reflexivity.
Qed.

(** A Turn that ends in [stop(false)] with the capture task alive hands the
    [conversationState] its loop left to the [start] called from the prompt. *)
Lemma start_prompted (turn : Turn) (later : list Turn) (cs : list byte) :
  setupOk turn ->
  micAlive turn = true ->
  forall t s,
    receiveLoop (writeOk turn) (recvs turn) (freshProc cs) = (t, s, Ended StopPrompt) ->
    start (turn :: later) cs
    = andThen (done (preamble cs ++ t ++ [MicStop; Cancel; PressEnter]) Returned
                    (conversationState s))
              (fun cs' => andThen (start later cs') (done [Log BlankLine] Returned)).
Proof.
  intros Hsetup Hmic t s Hloop.
  rewrite (start_ended turn later cs Hsetup t s StopPrompt Hloop).
  cbn [leaveLoop]. unfold stop, askTheUser. rewrite Hmic.
  rewrite !andThen_done. unfold traceOf, stateOf, outcomeOf. cbn [fst snd].
  rewrite <- !app_assoc. reflexivity.
Qed.

Lemma converseConfig_token (cs : list byte) :
  ConverseState (converseConfig cs) = tokenOf cs.
Proof. destruct cs; reflexivity. Qed.

Lemma preamble_eq (cs : list byte) :
  preamble cs
  = [WithDeadline 240; DialGRPC] ++ resumeLine cs
    ++ [Converse; SendConfig (converseConfig cs); GoCapture; OpenPlayback; Log Listening].
Proof. destruct cs; reflexivity. Qed.

Lemma start_config_resume (turn : Turn) (later : list Turn) (cs : list byte) :
  dialOk turn = true ->
  converseOk turn = true ->
  exists t,
    traceOf (start (turn :: later) cs)
    = [WithDeadline 240; DialGRPC] ++ resumeLine cs
      ++ [Converse; SendConfig (converseConfig cs)] ++ t.
Proof.
  intros Hd Hc. destruct (start_config turn later cs Hd Hc) as [t Ht].
  exists t. rewrite Ht. destruct cs; reflexivity.
Qed.

(** C2. When a Turn ends at the prompt, the Turn started from the prompt
    builds its configuration from the [conversationState] the receive loop
    left: the configuration message carries exactly that token when it is
    not empty and no token when it is empty. The same holds for the
    configuration of the first of the two Turns and the state it was
    started with, so a process started with the empty state sends no token. *)
Theorem continuation_token_carried_to_next_turn :
  forall (turn next : Turn) (later : list Turn) (cs : list byte) (t : Trace) (s : Proc),
    setupOk turn ->
    micAlive turn = true ->
    receiveLoop (writeOk turn) (recvs turn) (freshProc cs) = (t, s, Ended StopPrompt) ->
    dialOk next = true ->
    converseOk next = true ->
    exists cfg1 cfg2 rest,
      traceOf (start (turn :: next :: later) cs)
      = [WithDeadline 240; DialGRPC] ++ resumeLine cs
        ++ [Converse; SendConfig cfg1; GoCapture; OpenPlayback; Log Listening]
        ++ t ++ [MicStop; Cancel; PressEnter]
        ++ [WithDeadline 240; DialGRPC] ++ resumeLine (conversationState s)
        ++ [Converse; SendConfig cfg2] ++ rest
      /\ ConverseState cfg1 = tokenOf cs
      /\ ConverseState cfg2 = tokenOf (conversationState s)
      /\ (conversationState s <> [] -> ConverseState cfg2 = Some (conversationState s))
      /\ (cs = [] -> ConverseState cfg1 = None).
Proof.
  intros turn next later cs t s Hsetup Hmic Hloop Hd Hc.
  rewrite (start_prompted turn (next :: later) cs Hsetup Hmic t s Hloop).
  rewrite andThen_done.
  destruct (traceOf_andThen (start (next :: later) (conversationState s))
              (done [Log BlankLine] Returned)) as [tail Htail].
  destruct (start_config_resume next later (conversationState s) Hd Hc) as [t2 Ht2].
  exists (converseConfig cs), (converseConfig (conversationState s)), (t2 ++ tail).
  split; [| split; [| split; [| split]]].
  - unfold traceOf at 1. cbn [fst]. rewrite Htail, Ht2, preamble_eq.
    rewrite <- !app_assoc. reflexivity.
  - apply converseConfig_token.
  - apply converseConfig_token.
  - intros Hne. rewrite converseConfig_token.
    destruct (conversationState s); [congruence | reflexivity].
  - intros ->. reflexivity.
Qed.

Lemma continuation_token_carried_to_next_turn_witness :
  exists cfg1 cfg2 rest,
    traceOf (start [healthyTurn [RecvMsg helloThenClose]; healthyTurn [RecvEOF]] [])
    = [WithDeadline 240; DialGRPC] ++ resumeLine []
      ++ [Converse; SendConfig cfg1; GoCapture; OpenPlayback; Log Listening]
      ++ (resultLines (resultOf "hello" (Some [x2a]) CLOSE_MICROPHONE)
            ++ [Log (Transcript "hello"); Log MicrophoneClosed])
      ++ [MicStop; Cancel; PressEnter]
      ++ [WithDeadline 240; DialGRPC]
      ++ resumeLine (conversationState {| conversationState := [x2a]; outWrites := 0 |})
      ++ [Converse; SendConfig cfg2] ++ rest
    /\ ConverseState cfg1 = tokenOf []
    /\ ConverseState cfg2
       = tokenOf (conversationState {| conversationState := [x2a]; outWrites := 0 |})
    /\ (conversationState {| conversationState := [x2a]; outWrites := 0 |} <> [] ->
        ConverseState cfg2
        = Some (conversationState {| conversationState := [x2a]; outWrites := 0 |}))
    /\ (@nil byte = [] -> ConverseState cfg1 = None).
Proof.
  apply (continuation_token_carried_to_next_turn
           (healthyTurn [RecvMsg helloThenClose]) (healthyTurn [RecvEOF]) [] []
           (resultLines (resultOf "hello" (Some [x2a]) CLOSE_MICROPHONE)
              ++ [Log (Transcript "hello"); Log MicrophoneClosed])
           {| conversationState := [x2a]; outWrites := 0 |}).
  - repeat split.
  - reflexivity.
  - reflexivity.
  - reflexivity.
  - reflexivity.
Defined.

(** ** What an event does to the loop *)

Lemma allLocal_app (t1 t2 : Trace) :
  allLocal t1 -> allLocal t2 -> allLocal (t1 ++ t2).
Proof.
  unfold allLocal. intros H1 H2. rewrite forallb_app, H1, H2. reflexivity.
Qed.

Lemma allLocal_not_in (t : Trace) (e : Effect) :
  allLocal t -> isLocal e = false -> ~ In e t.
Proof.
  unfold allLocal. intros Ht He Hin.
  rewrite forallb_forall in Ht. specialize (Ht e Hin). congruence.
Qed.

Lemma microphoneMode_eq (m : MicrophoneMode) (s : Proc) :
  microphoneMode m s = ([Log (micLine m)], s, micCtl m).
Proof. destruct m; reflexivity. Qed.

Section EventFacts.

Variable writeOk : nat -> bool.

Lemma playLoop_local (fuel : nat) :
  forall signal k tr k',
    playLoop bufOutLen writeOk fuel signal k = Some (tr, k') -> allLocal tr.
Proof.
  induction fuel as [| fuel IH]; intros signal k tr k' H; [discriminate |].
  cbn [playLoop] in H.
  destruct (binaryRead bufOutLen signal) as [[frame rest] |].
  - destruct (writeOk k).
    + destruct (playLoop bufOutLen writeOk fuel rest (S k)) as [[tr' k''] |] eqn:Hrec;
        [| discriminate].
      injection H as <- <-. unfold allLocal. cbn [forallb isLocal andb].
      exact (IH _ _ _ _ Hrec).
    + injection H as <- <-. reflexivity.
  - injection H as <- <-. reflexivity.
Qed.

Lemma playAudio_local (audioOut : option AudioOutData) (s : Proc) :
  allLocal (fst (fst (playAudio writeOk audioOut s))).
Proof.
  destruct audioOut as [a |]; cbn [playAudio]; [| reflexivity].
  flow.
  destruct (playLoop bufOutLen writeOk (S (List.length (AudioData a))) (AudioData a)
              (outWrites s)) as [[tr k] |] eqn:Hrun; cbn [fst app].
  - unfold allLocal. cbn [forallb isLocal andb]. exact (playLoop_local _ _ _ _ _ Hrun).
  - reflexivity.
Qed.

(** The body, for an event that gets past the transcript and the event
    type: every field is handled, one after the other. *)
Lemma handleRecv_through (resp : ConverseResponse) (result : ConverseResult) (s : Proc) :
  Error resp = None ->
  Result resp = Some result ->
  isQuit (SpokenRequestText result) = false ->
  Event resp <> END_OF_UTTERANCE ->
  exists ta k,
    playAudio writeOk (AudioOutField resp) (storeToken result s)
    = (ta, {| conversationState := conversationState (storeToken result s);
              outWrites := k |}, Next tt)
    /\ handleRecv writeOk (RecvMsg resp) s
       = (resultLines result ++ transcriptLines result ++ responseLines result
            ++ ta ++ [Log (micLine (MicMode result))],
          {| conversationState := conversationState (storeToken result s);
             outWrites := k |},
          micCtl (MicMode result)).
Proof.
  intros Herr Hres Hq He.
  destruct (playAudio_next writeOk (AudioOutField resp) (storeToken result s))
    as (ta & k & Ha & _).
  exists ta, k. split; [exact Ha |].
  cbn [handleRecv]. rewrite Herr, Hres.
  apply (handleResult_through writeOk resp result s Hq He _ _ _ _ _ Ha).
  apply microphoneMode_eq.
Qed.

Lemma isEndOfUtterance_false (e : EventType) :
  isEndOfUtterance e = false -> e <> END_OF_UTTERANCE.
Proof. destruct e; [discriminate | discriminate]. Qed.

Lemma isEndOfUtterance_true (e : EventType) :
  isEndOfUtterance e = true -> e = END_OF_UTTERANCE.
Proof. destruct e; [discriminate | reflexivity]. Qed.

(** The way the body is left depends on the event alone. *)
Lemma handleRecv_ctl (r : Recv) (s : Proc) :
  snd (handleRecv writeOk r s) = ctlOf r.
Proof.
  destruct r as [| err | resp]; [reflexivity | reflexivity |].
  cbn [ctlOf].
  destruct (Error resp) as [err |] eqn:Herr; [cbn [handleRecv]; rewrite Herr; reflexivity |].
  destruct (Result resp) as [result |] eqn:Hres;
    [| cbn [handleRecv]; rewrite Herr, Hres; reflexivity].
  destruct (isQuit (SpokenRequestText result)) eqn:Hq.
  - cbn [handleRecv]. rewrite Herr, Hres, handleResult_quit by exact Hq. reflexivity.
  - destruct (isEndOfUtterance (Event resp)) eqn:He.
    + cbn [handleRecv].
      rewrite Herr, Hres, handleResult_endOfUtterance
        by (try exact Hq; now apply isEndOfUtterance_true).
      reflexivity.
    + destruct (handleRecv_through resp result s Herr Hres Hq
                  (isEndOfUtterance_false _ He)) as (ta & k & _ & ->).
      reflexivity.
Qed.

Lemma handleRecv_local (r : Recv) (s : Proc) :
  allLocal (fst (fst (handleRecv writeOk r s))).
Proof.
  destruct r as [| err | resp]; [reflexivity | reflexivity |].
  destruct (Error resp) as [err |] eqn:Herr; [cbn [handleRecv]; rewrite Herr; reflexivity |].
  destruct (Result resp) as [result |] eqn:Hres;
    [| cbn [handleRecv]; rewrite Herr, Hres; reflexivity].
  assert (Hhead : allLocal (resultLines result)) by reflexivity.
  assert (Htr : allLocal (transcriptLines result))
    by (unfold transcriptLines; destruct (nonEmpty _); reflexivity).
  assert (Hrs : allLocal (responseLines result))
    by (unfold responseLines; destruct (nonEmpty _); reflexivity).
  destruct (isQuit (SpokenRequestText result)) eqn:Hq.
  - cbn [handleRecv]. rewrite Herr, Hres, handleResult_quit by exact Hq. reflexivity.
  - destruct (isEndOfUtterance (Event resp)) eqn:He.
    + cbn [handleRecv].
      rewrite Herr, Hres, handleResult_endOfUtterance
        by (try exact Hq; now apply isEndOfUtterance_true).
      cbn [fst].
      apply allLocal_app; [assumption |]. apply allLocal_app; [assumption |].
      apply allLocal_app; [assumption | reflexivity].
    + destruct (handleRecv_through resp result s Herr Hres Hq
                  (isEndOfUtterance_false _ He)) as (ta & k & Ha & ->).
      pose proof (playAudio_local (AudioOutField resp) (storeToken result s)) as Hl.
      rewrite Ha in Hl. cbn [fst] in *.
      apply allLocal_app; [assumption |]. apply allLocal_app; [assumption |].
      apply allLocal_app; [assumption |]. apply allLocal_app; [assumption | reflexivity].
Qed.

Lemma receiveLoop_local (recvs : list Recv) :
  forall s, allLocal (fst (fst (receiveLoop writeOk recvs s))).
Proof.
  induction recvs as [| r later IH]; intros s; [reflexivity |].
  cbn [receiveLoop].
  pose proof (handleRecv_local r s) as Hr.
  destruct (handleRecv writeOk r s) as [[t1 s1] [[] | v]]; cbn [fst] in *.
  - specialize (IH s1). destruct (receiveLoop writeOk later s1) as [[t2 s2] e].
    cbn [fst] in *. now apply allLocal_app.
  - exact Hr.
Qed.

End EventFacts.

(** ** The bound on the playback loop is never met *)

Lemma ctlOf_within_bound (r : Recv) : ctlOf r <> Leave OutOfFuel.
Proof.
  destruct r as [| err | resp]; cbn [ctlOf]; try discriminate.
  destruct (Error resp); [discriminate |].
  destruct (Result resp) as [result |]; [| discriminate].
  destruct (isQuit (SpokenRequestText result)); [discriminate |].
  destruct (isEndOfUtterance (Event resp)); [discriminate |].
  destruct (MicMode result); discriminate.
Qed.

Lemma receiveLoop_within_bound (writeOk : nat -> bool) (recvs : list Recv) :
  forall s t s', receiveLoop writeOk recvs s <> (t, s', Ended OutOfFuel).
Proof.
  induction recvs as [| r later IH]; intros s t s' Hrun; [discriminate |].
  cbn [receiveLoop] in Hrun.
  pose proof (handleRecv_ctl writeOk r s) as Hctl.
  destruct (handleRecv writeOk r s) as [[t1 s1] [[] | v]]; cbn [snd] in Hctl.
  - destruct (receiveLoop writeOk later s1) as [[t2 s2] e] eqn:Hrec.
    injection Hrun as _ <- ->. exact (IH _ _ _ Hrec).
  - injection Hrun as _ _ ->. exact (ctlOf_within_bound r (eq_sym Hctl)).
Qed.

(** Every run of [start] is a run of the Go code: the outcome that stands
    for a playback loop cut short by the model does not occur. *)
Lemma start_within_bound (world : list Turn) :
  forall cs, outcomeOf (start world cs) <> Unmodelled.
Proof.
  induction world as [| turn later IH]; intros cs; [discriminate |].
  cbn [start]. unfold runTurn.
  destruct (dialOk turn); cbn [negb]; [| discriminate].
  destruct (converseOk turn); cbn [negb]; [| discriminate].
  destruct (sendOk turn); cbn [negb]; [| discriminate].
  destruct (playback turn); try discriminate.
  destruct (receiveLoop (writeOk turn) (recvs turn) (freshProc cs)) as [[t s] [v |]] eqn:Hloop;
    [| discriminate].
  rewrite andThen_done. unfold outcomeOf at 1. cbn [snd].
  destruct v; cbn [leaveLoop].
  - discriminate.
  - discriminate.
  - unfold stop. destruct (micAlive turn); discriminate.
  - destruct (micAlive turn); discriminate.
  - unfold stop, askTheUser. destruct (micAlive turn); [| discriminate].
    rewrite !andThen_done. unfold outcomeOf at 1 2. cbn [snd].
    specialize (IH (conversationState s)).
    destruct (start later (conversationState s)) as [[t' cs'] o].
    unfold outcomeOf in *. cbn [snd] in *.
    unfold andThen, done. destruct o; cbn [snd]; congruence.
  - exfalso. exact (receiveLoop_within_bound _ _ _ _ _ Hloop).
Qed.

(** ** The stored token *)

Section TokenFacts.

Variable writeOk : nat -> bool.

Lemma handleRecv_stores (resp : ConverseResponse) (result : ConverseResult)
  (token : list byte) (s : Proc) :
  Error resp = None ->
  Result resp = Some result ->
  isQuit (SpokenRequestText result) = false ->
  ConversationState result = Some token ->
  conversationState (snd (fst (handleRecv writeOk (RecvMsg resp) s))) = token.
Proof.
  intros Herr Hres Hq Htok.
  assert (Hstore : conversationState (storeToken result s) = token)
    by (unfold storeToken; rewrite Htok; reflexivity).
  destruct (isEndOfUtterance (Event resp)) eqn:He.
  - cbn [handleRecv].
    rewrite Herr, Hres, handleResult_endOfUtterance
      by (try exact Hq; now apply isEndOfUtterance_true).
    exact Hstore.
  - destruct (handleRecv_through writeOk resp result s Herr Hres Hq
                (isEndOfUtterance_false _ He)) as (ta & k & _ & ->).
    exact Hstore.
Qed.

Lemma handleRecv_keeps_token (r : Recv) (s : Proc) :
  storesToken r = false ->
  conversationState (snd (fst (handleRecv writeOk r s))) = conversationState s.
Proof.
  destruct r as [| err | resp]; [reflexivity | reflexivity |].
  cbn [storesToken]. intros Hno.
  destruct (Error resp) as [err |] eqn:Herr; [cbn [handleRecv]; rewrite Herr; reflexivity |].
  destruct (Result resp) as [result |] eqn:Hres;
    [| cbn [handleRecv]; rewrite Herr, Hres; reflexivity].
  assert (Hstore : storeToken result s = s).
  { unfold storeToken. destruct (ConversationState result); [discriminate | reflexivity]. }
  destruct (isQuit (SpokenRequestText result)) eqn:Hq.
  - cbn [handleRecv]. rewrite Herr, Hres, handleResult_quit by exact Hq. reflexivity.
  - destruct (isEndOfUtterance (Event resp)) eqn:He.
    + cbn [handleRecv].
      rewrite Herr, Hres, handleResult_endOfUtterance
        by (try exact Hq; now apply isEndOfUtterance_true).
      cbn [fst snd]. now rewrite Hstore.
    + destruct (handleRecv_through writeOk resp result s Herr Hres Hq
                  (isEndOfUtterance_false _ He)) as (ta & k & _ & ->).
      cbn [fst snd conversationState]. now rewrite Hstore.
Qed.

Lemma receiveLoop_keeps_token (recvs : list Recv) :
  forall s,
    forallb (fun r => negb (storesToken r)) recvs = true ->
    conversationState (snd (fst (receiveLoop writeOk recvs s))) = conversationState s.
Proof.
  induction recvs as [| r later IH]; intros s Hno; [reflexivity |].
  cbn [forallb] in Hno. apply andb_true_iff in Hno as [Hr Hlater].
  apply negb_true_iff in Hr.
  pose proof (handleRecv_keeps_token r s Hr) as Hkeep.
  cbn [receiveLoop].
  destruct (handleRecv writeOk r s) as [[t1 s1] [[] | v]]; cbn [fst snd] in *.
  - specialize (IH s1 Hlater).
    destruct (receiveLoop writeOk later s1) as [[t2 s2] e]. cbn [fst snd] in *. congruence.
  - exact Hkeep.
Qed.

End TokenFacts.

(** C10. An event that carries a continuation token that is present but
    has length zero overwrites the stored [conversationState] with the empty
    value, whatever was stored before (by this Turn or an earlier one). When
    no later event of the Turn brings a token and the Turn ends at the
    prompt, the configuration message of the Turn started from the prompt
    carries no continuation token. *)
Theorem empty_token_overwrites_stored_state :
  forall (turn next : Turn) (later : list Turn) (cs : list byte)
         (pre post : list Recv) (resp : ConverseResponse) (result : ConverseResult)
         (tpre t : Trace) (spre s : Proc),
    setupOk turn ->
    micAlive turn = true ->
    recvs turn = pre ++ RecvMsg resp :: post ->
    receiveLoop (writeOk turn) pre (freshProc cs) = (tpre, spre, Receiving) ->
    Error resp = None ->
    Result resp = Some result ->
    isQuit (SpokenRequestText result) = false ->
    ConversationState result = Some [] ->
    forallb (fun r => negb (storesToken r)) post = true ->
    receiveLoop (writeOk turn) (recvs turn) (freshProc cs) = (t, s, Ended StopPrompt) ->
    dialOk next = true ->
    converseOk next = true ->
    conversationState (snd (fst (handleRecv (writeOk turn) (RecvMsg resp) spre))) = []
    /\ conversationState s = []
    /\ exists cfg rest,
         traceOf (start (turn :: next :: later) cs)
         = preamble cs ++ t
           ++ [MicStop; Cancel; PressEnter; WithDeadline 240; DialGRPC; Converse;
               SendConfig cfg] ++ rest
         /\ ConverseState cfg = None.
Proof.
  intros turn next later cs pre post resp result tpre t spre s
         Hsetup Hmic Hrecvs Hpre Herr Hres Hq Htok Hpost Hloop Hd Hc.
  pose proof (handleRecv_stores (writeOk turn) resp result [] spre Herr Hres Hq Htok) as Hev.
  assert (Hs : conversationState s = []).
  { pose proof Hloop as Hrun. rewrite Hrecvs in Hrun.
    rewrite (receiveLoop_app (writeOk turn) pre (RecvMsg resp :: post) _ _ _ Hpre) in Hrun.
    cbn [receiveLoop] in Hrun.
    destruct (handleRecv (writeOk turn) (RecvMsg resp) spre) as [[t1 s1] [[] | v]];
      cbn [fst snd] in Hev.
    - pose proof (receiveLoop_keeps_token (writeOk turn) post s1 Hpost) as Hkeep.
      destruct (receiveLoop (writeOk turn) post s1) as [[t2 s2] e]. cbn [fst snd] in Hkeep.
      injection Hrun as _ <- _. congruence.
    - injection Hrun as _ <- _. exact Hev. }
  split; [exact Hev | split; [exact Hs |]].
  rewrite (start_prompted turn (next :: later) cs Hsetup Hmic t s Hloop).
  rewrite andThen_done.
  destruct (traceOf_andThen (start (next :: later) (conversationState s))
              (done [Log BlankLine] Returned)) as [tail Htail].
  destruct (start_config_resume next later (conversationState s) Hd Hc) as [t2 Ht2].
  exists (converseConfig []), (t2 ++ tail). split; [| reflexivity].
  unfold traceOf at 1. cbn [fst]. rewrite Htail, Ht2, Hs. cbn [resumeLine].
  rewrite <- !app_assoc. reflexivity.
Qed.

Lemma empty_token_overwrites_stored_state_witness :
  conversationState
    (snd (fst (handleRecv (fun _ => true) (RecvMsg emptyTokenThenClose) (freshProc [x2a]))))
  = []
  /\ conversationState (freshProc []) = []
  /\ exists cfg rest,
       traceOf (start [healthyTurn [RecvMsg emptyTokenThenClose]; healthyTurn [RecvEOF]]
                      [x2a])
       = preamble [x2a] ++ emptyTokenLines
         ++ [MicStop; Cancel; PressEnter; WithDeadline 240; DialGRPC; Converse;
             SendConfig cfg] ++ rest
       /\ ConverseState cfg = None.
Proof.
  apply (empty_token_overwrites_stored_state
           (healthyTurn [RecvMsg emptyTokenThenClose]) (healthyTurn [RecvEOF]) [] [x2a]
           [] [] emptyTokenThenClose (resultOf "hello" (Some []) CLOSE_MICROPHONE)
           [] emptyTokenLines (freshProc [x2a]) (freshProc [])).
  - repeat split.
  - reflexivity.
  - reflexivity.
  - reflexivity.
  - reflexivity.
  - reflexivity.
  - reflexivity.
  - reflexivity.
  - reflexivity.
  - reflexivity.
  - reflexivity.
  - reflexivity.
Defined.

(** ** Several fields in one event *)

Lemma playAudio_device_only (writeOk : nat -> bool) (audioOut : option AudioOutData)
  (s1 s2 : Proc) :
  outWrites s1 = outWrites s2 ->
  fst (fst (playAudio writeOk audioOut s1)) = fst (fst (playAudio writeOk audioOut s2))
  /\ outWrites (snd (fst (playAudio writeOk audioOut s1)))
     = outWrites (snd (fst (playAudio writeOk audioOut s2))).
Proof.
  intros Hw. destruct audioOut as [a |]; cbn [playAudio]; flow.
  - rewrite Hw.
    destruct (playLoop bufOutLen writeOk (S (List.length (AudioData a))) (AudioData a)
                (outWrites s2)) as [[tr k] |]; cbn [fst snd outWrites app].
    + split; reflexivity.
    + split; [reflexivity | exact Hw].
  - cbn [fst snd]. split; [reflexivity | exact Hw].
Qed.

Lemma storeToken_outWrites (result : ConverseResult) (s : Proc) :
  outWrites (storeToken result s) = outWrites s.
Proof. unfold storeToken. destruct (ConversationState result); reflexivity. Qed.

Lemma storeToken_token (result : ConverseResult) (s : Proc) :
  conversationState (storeToken result s) = tokenAfter result s.
Proof. unfold storeToken, tokenAfter. destruct (ConversationState result); reflexivity. Qed.

(** C8, as the code has it. In an event with no error, a non-nil result, a
    transcript other than "quit" and "exit" and an event type other than
    END_OF_UTTERANCE, every field that is present is handled, in the order
    transcript, response text, continuation token, audio payload, microphone
    mode: the lines logged for the two texts depend on that text alone, the
    token is stored when it is not nil, the payload is played as it would be
    on its own from the same device state, and the microphone mode alone
    decides how the body is left. *)
Theorem present_fields_handled_in_order :
  forall (writeOk : nat -> bool) (resp : ConverseResponse) (result : ConverseResult)
         (s : Proc),
    Error resp = None ->
    Result resp = Some result ->
    isQuit (SpokenRequestText result) = false ->
    Event resp <> END_OF_UTTERANCE ->
    handleRecv writeOk (RecvMsg resp) s
    = (resultLines result
         ++ transcriptLines result
         ++ responseLines result
         ++ fst (fst (playAudio writeOk (AudioOutField resp) s))
         ++ [Log (micLine (MicMode result))],
       {| conversationState := tokenAfter result s;
          outWrites := outWrites (snd (fst (playAudio writeOk (AudioOutField resp) s))) |},
       micCtl (MicMode result)).
Proof.
  intros writeOk resp result s Herr Hres Hq He.
  destruct (handleRecv_through writeOk resp result s Herr Hres Hq He)
    as (ta & k & Ha & ->).
  destruct (playAudio_device_only writeOk (AudioOutField resp) (storeToken result s) s
              (storeToken_outWrites result s)) as [Htrace Hk].
  rewrite Ha in Htrace, Hk. cbn [fst snd outWrites] in Htrace, Hk.
  rewrite <- Htrace, <- Hk, storeToken_token. reflexivity.
Qed.

Lemma present_fields_handled_in_order_witness :
  handleRecv (fun _ => true) (RecvMsg helloCloseWithToken) (freshProc [])
  = (resultLines (resultOf "hello" (Some [x01; x02]) CLOSE_MICROPHONE)
       ++ transcriptLines (resultOf "hello" (Some [x01; x02]) CLOSE_MICROPHONE)
       ++ responseLines (resultOf "hello" (Some [x01; x02]) CLOSE_MICROPHONE)
       ++ fst (fst (playAudio (fun _ => true) (AudioOutField helloCloseWithToken)
                      (freshProc [])))
       ++ [Log (micLine (MicMode (resultOf "hello" (Some [x01; x02]) CLOSE_MICROPHONE)))],
     {| conversationState :=
          tokenAfter (resultOf "hello" (Some [x01; x02]) CLOSE_MICROPHONE) (freshProc []);
        outWrites :=
          outWrites (snd (fst (playAudio (fun _ => true)
                                 (AudioOutField helloCloseWithToken) (freshProc [])))) |},
     micCtl (MicMode (resultOf "hello" (Some [x01; x02]) CLOSE_MICROPHONE))).
Proof.
  apply (present_fields_handled_in_order (fun _ => true) helloCloseWithToken
           (resultOf "hello" (Some [x01; x02]) CLOSE_MICROPHONE) (freshProc [])).
  - reflexivity.
  - reflexivity.
  - reflexivity.
  - discriminate.
Defined.

(** The sentence of the spec does not hold. The two events differ in the
    transcript only. With "hello" the token is stored, the payload read and
    the microphone mode handled; with "quit" the token, the payload and the
    microphone mode are present just the same and none of them is handled. *)
Lemma quit_transcript_suppresses_other_fields :
  handleRecv (fun _ => true) (RecvMsg helloCloseWithToken) (freshProc [])
  = (resultLines (resultOf "hello" (Some [x01; x02]) CLOSE_MICROPHONE)
       ++ [Log (Transcript "hello"); Log AudioOutFromTheAssistant;
           Log FailedToReadAudioOut; Log MicrophoneClosed],
     freshProc [x01; x02], Leave StopPrompt)
  /\ handleRecv (fun _ => true) (RecvMsg quitCloseWithToken) (freshProc [])
     = (resultLines (resultOf "quit" (Some [x01; x02]) CLOSE_MICROPHONE)
          ++ [Log (Transcript "quit"); Log GotItSeeYouLater],
        freshProc [], Leave StopQuit).
Proof. split; vm_compute; reflexivity. Qed.

(** ** An audio payload in the receive loop *)

Section PlaybackInLoopFacts.

Variable n : nat.
Variable writeOk : nat -> bool.
Hypothesis n_pos : 0 < n.

(** The inner loop when the writes it makes succeed: only the device's
    answers to these writes matter. *)
Lemma playLoop_frames_while_ok (q : nat) :
  forall signal r fuel k,
    List.length signal = q * (2 * n) + r ->
    r < 2 * n ->
    q < fuel ->
    (forall j, j < q -> writeOk (k + j) = true) ->
    playLoop n writeOk fuel signal k
    = Some (wholeFrames n signal q ++ [Log FailedToReadAudioOut], k + q).
Proof.
  induction q as [| q IH]; intros signal r fuel k Hlen Hr Hfuel Hok.
  - destruct fuel as [| fuel]; [lia |]. cbn [playLoop].
    rewrite (binaryRead_short n n_pos signal) by lia.
    now rewrite Nat.add_0_r.
  - destruct fuel as [| fuel]; [lia |]. cbn [playLoop].
    rewrite (binaryRead_frame n n_pos signal) by lia.
    assert (Hk : writeOk k = true)
      by (rewrite <- (Nat.add_0_r k); apply Hok; lia).
    rewrite Hk.
    rewrite (IH (skipn (2 * n) signal) r fuel (S k)).
    + rewrite (wholeFrames_step n n_pos). cbn [app]. do 2 f_equal. lia.
    + rewrite length_skipn. lia.
    + assumption.
    + lia.
    + intros j Hj. replace (S k + j) with (k + S j) by lia. apply Hok. lia.
Qed.

End PlaybackInLoopFacts.

Lemma playbackWrites_wholeFrames (n : nat) (signal : list byte) (q : nat) :
  playbackWrites (wholeFrames n signal q) = map (frameAt n signal) (seq 0 q).
Proof.
  unfold wholeFrames. induction (seq 0 q) as [| i l IH]; [reflexivity |].
  cbn [map playbackWrites]. now rewrite IH.
Qed.

Lemma playbackWrites_lines (result : ConverseResult) :
  playbackWrites (resultLines result) = []
  /\ playbackWrites (transcriptLines result) = []
  /\ playbackWrites (responseLines result) = [].
Proof.
  unfold resultLines, transcriptLines, responseLines.
  destruct (nonEmpty (SpokenRequestText result)), (nonEmpty (SpokenResponseText result));
    repeat split; reflexivity.
Qed.

(** C3, as the code has it. In an event that the loop body handles as far
    as the audio payload (no error field, a result, a transcript other than
    "quit" and "exit", an event type other than END_OF_UTTERANCE), with a
    playback device that takes the writes made for it, a payload of [q]
    whole frames of 8192 16-bit samples (16384 bytes each) followed by [r]
    bytes, [r] less than a frame, makes the receive loop call
    [streamOut.Write()] exactly [q] times, one after the other, the [i]-th
    time with the [i]-th frame of the payload; a length that is a multiple
    of the frame size is the case [r = 0]. The [r] bytes left over feed no
    write: the frames written are those of the first [q] frames' worth of
    bytes. In the trace of the loop these writes follow those of the earlier
    events. *)
Theorem receive_loop_plays_payload_frame_by_frame :
  forall (writeOk : nat -> bool) (pre post : list Recv) (resp : ConverseResponse)
         (result : ConverseResult) (a : AudioOutData) (s spre : Proc) (tpre : Trace)
         (q r : nat),
    receiveLoop writeOk pre s = (tpre, spre, Receiving) ->
    Error resp = None ->
    Result resp = Some result ->
    isQuit (SpokenRequestText result) = false ->
    Event resp <> END_OF_UTTERANCE ->
    AudioOutField resp = Some a ->
    List.length (AudioData a) = q * (2 * bufOutLen) + r ->
    r < 2 * bufOutLen ->
    (forall j, j < q -> writeOk (outWrites spre + j) = true) ->
    exists tev sev rest,
      handleRecv writeOk (RecvMsg resp) spre = (tev, sev, micCtl (MicMode result))
      /\ playbackWrites tev = map (frameAt bufOutLen (AudioData a)) (seq 0 q)
      /\ List.length (playbackWrites tev) = q
      /\ (forall frame, In frame (playbackWrites tev) -> List.length frame = bufOutLen)
      /\ playbackWrites tev
         = map (frameAt bufOutLen (firstn (q * (2 * bufOutLen)) (AudioData a))) (seq 0 q)
      /\ outWrites sev = outWrites spre + q
      /\ playbackWrites (fst (fst (receiveLoop writeOk (pre ++ RecvMsg resp :: post) s)))
         = playbackWrites tpre ++ playbackWrites tev ++ rest.
Proof.
  intros writeOk pre post resp result a s spre tpre q r
         Hpre Herr Hres Hq He Haudio Hlen Hr Hok.
  destruct (handleRecv_through writeOk resp result spre Herr Hres Hq He)
    as (ta & k & Hplay & Hbody).
  assert (Hrun :
    playAudio writeOk (Some a) (storeToken result spre)
    = (Log AudioOutFromTheAssistant
         :: wholeFrames bufOutLen (AudioData a) q ++ [Log FailedToReadAudioOut],
       {| conversationState := conversationState (storeToken result spre);
          outWrites := outWrites (storeToken result spre) + q |},
       Next tt)).
  { cbn [playAudio]. flow.
    rewrite (playLoop_frames_while_ok bufOutLen writeOk bufOutLen_pos q (AudioData a) r);
      [reflexivity | exact Hlen | exact Hr | | ].
    - pose proof bufOutLen_pos. nia.
    - rewrite storeToken_outWrites. exact Hok. }
  rewrite Haudio, Hrun in Hplay. injection Hplay as <- <-.
  rewrite storeToken_outWrites in Hbody.
  destruct (playbackWrites_lines result) as (Hl1 & Hl2 & Hl3).
  set (tev := resultLines result ++ transcriptLines result ++ responseLines result
              ++ (Log AudioOutFromTheAssistant
                    :: wholeFrames bufOutLen (AudioData a) q ++ [Log FailedToReadAudioOut])
              ++ [Log (micLine (MicMode result))]) in *.
  assert (Hwrites : playbackWrites tev = map (frameAt bufOutLen (AudioData a)) (seq 0 q)).
  { unfold tev. rewrite !playbackWrites_app, Hl1, Hl2, Hl3.
    cbn [playbackWrites app]. rewrite playbackWrites_app, playbackWrites_wholeFrames.
    cbn [playbackWrites]. now rewrite !app_nil_r. }
  set (sev := {| conversationState := conversationState (storeToken result spre);
                 outWrites := outWrites spre + q |}) in *.
  assert (Hloop : exists rest,
    playbackWrites (fst (fst (receiveLoop writeOk (pre ++ RecvMsg resp :: post) s)))
    = playbackWrites tpre ++ playbackWrites tev ++ rest).
  { rewrite (receiveLoop_app writeOk pre (RecvMsg resp :: post) _ _ _ Hpre).
    cbn [receiveLoop]. rewrite Hbody.
    destruct (micCtl (MicMode result)) as [[] | v].
    - destruct (receiveLoop writeOk post sev) as [[t2 s2] e]. cbn [fst].
      exists (playbackWrites t2). now rewrite !playbackWrites_app.
    - cbn [fst]. exists []. now rewrite playbackWrites_app, app_nil_r. }
  destruct Hloop as [rest Hrest].
  exists tev, sev, rest.
  split; [exact Hbody | split; [exact Hwrites | split; [| split; [| split; [| split]]]]].
  - rewrite Hwrites, length_map, length_seq. reflexivity.
  - rewrite Hwrites. intros frame Hin.
    apply in_map_iff in Hin as (i & <- & Hi). apply in_seq in Hi.
    apply frameAt_length. rewrite Hlen.
    assert (Hle : S i * (2 * bufOutLen) <= q * (2 * bufOutLen))
      by (apply Nat.mul_le_mono_r; lia).
    lia.
  - rewrite Hwrites. apply map_ext_in. intros i Hi. apply in_seq in Hi.
    unfold frameAt. f_equal.
    rewrite skipn_firstn_comm, firstn_firstn. f_equal.
    symmetry. apply Nat.min_l.
    generalize (2 * bufOutLen). intros b.
    assert (Hle : S i * b <= q * b) by (apply Nat.mul_le_mono_r; lia).
    rewrite Nat.mul_succ_l in Hle. lia.
  - reflexivity.
  - exact Hrest.
Qed.

Lemma receive_loop_plays_payload_frame_by_frame_witness :
  exists tev sev rest,
    handleRecv secondWriteFails (RecvMsg oneFrameFollowOn) (freshProc [])
    = (tev, sev, micCtl (MicMode (resultOf "hello" None DIALOG_FOLLOW_ON)))
    /\ playbackWrites tev = map (frameAt bufOutLen (AudioData oneFrame)) (seq 0 1)
    /\ List.length (playbackWrites tev) = 1
    /\ (forall frame, In frame (playbackWrites tev) -> List.length frame = bufOutLen)
    /\ playbackWrites tev
       = map (frameAt bufOutLen (firstn (1 * (2 * bufOutLen)) (AudioData oneFrame)))
             (seq 0 1)
    /\ outWrites sev = outWrites (freshProc []) + 1
    /\ playbackWrites
         (fst (fst (receiveLoop secondWriteFails
                      ([RecvMsg nilResultEvent] ++ RecvMsg oneFrameFollowOn :: [RecvEOF])
                      (freshProc []))))
       = playbackWrites [Log NilResult] ++ playbackWrites tev ++ rest.
Proof.
  apply (receive_loop_plays_payload_frame_by_frame
           secondWriteFails [RecvMsg nilResultEvent] [RecvEOF] oneFrameFollowOn
           (resultOf "hello" None DIALOG_FOLLOW_ON) oneFrame (freshProc []) (freshProc [])
           [Log NilResult] 1 0).
  - reflexivity.
  - reflexivity.
  - reflexivity.
  - reflexivity.
  - discriminate.
  - reflexivity.
  - vm_compute. reflexivity.
  - apply Nat.ltb_lt. vm_compute. reflexivity.
  - intros j Hj. destruct j as [| j]; [reflexivity | lia].
Defined.

(** The sentence of the spec does not hold for every payload. A payload of
    exactly one frame makes one write in an event that gets to the audio
    step; the same payload makes none in an event with a nil result, which
    the loop skips, and none in an event with the END_OF_UTTERANCE event
    type, on which the body returns before the audio step. *)
Lemma payload_not_played_in_skipped_event :
  playbackWrites
    (fst (fst (receiveLoop (fun _ => true) [RecvMsg oneFrameFollowOn] (freshProc []))))
  = [frameAt bufOutLen (AudioData oneFrame) 0]
  /\ playbackWrites
       (fst (fst (receiveLoop (fun _ => true) [RecvMsg oneFrameNoResult] (freshProc []))))
     = []
  /\ playbackWrites
       (fst (fst (receiveLoop (fun _ => true) [RecvMsg oneFrameEndOfUtterance]
                    (freshProc []))))
     = [].
Proof. repeat split; vm_compute; reflexivity. Qed.

(** ** Nil results and unmanaged microphone modes *)




(** ** When the loop ends *)

Lemma calm_goes_on (r : Recv) :
  calm r = true -> endsLoop r = false -> ctlOf r = Next tt.
Proof.
  destruct r as [| err | resp]; cbn [calm endsLoop ctlOf]; try discriminate.
  destruct (Error resp); [discriminate |].
  destruct (Result resp) as [result |]; [| reflexivity].
  intros Hcalm Hend.
  apply andb_true_iff in Hcalm as [Hq Hc]. apply negb_true_iff in Hq.
  apply orb_false_iff in Hend as [He Hm]. apply negb_false_iff in Hm.
  rewrite Hq, He.
  destruct (MicMode result); try discriminate; reflexivity.
Qed.

Lemma calm_ends (r : Recv) :
  calm r = true -> endsLoop r = true ->
  exists v, ctlOf r = Leave v /\ endOfTurnVerdict v.
Proof.
  unfold endOfTurnVerdict.
  destruct r as [| err | resp]; cbn [calm endsLoop ctlOf]; try discriminate.
  - intros _ _. exists BreakLoop. auto.
  - destruct (Error resp); [discriminate |].
    destruct (Result resp) as [result |]; [| discriminate].
    intros Hcalm Hend.
    apply andb_true_iff in Hcalm as [Hq Hc]. apply negb_true_iff in Hq.
    rewrite Hq.
    destruct (isEndOfUtterance (Event resp)); [exists SignalReturn; auto |].
    cbn [orb] in Hend. apply negb_true_iff in Hend.
    exists StopPrompt. split; [| auto].
    destruct (MicMode result); try discriminate; reflexivity.
Qed.

Lemma receiveLoop_goes_on (writeOk : nat -> bool) (recvs : list Recv) :
  forall s,
    forallb calm recvs = true ->
    forallb (fun r => negb (endsLoop r)) recvs = true ->
    exists t s', receiveLoop writeOk recvs s = (t, s', Receiving).
Proof.
  induction recvs as [| r later IH]; intros s Hcalm Hgo.
  - exists [], s. reflexivity.
  - cbn [forallb] in Hcalm, Hgo.
    apply andb_true_iff in Hcalm as [Hc Hcalm].
    apply andb_true_iff in Hgo as [Hg Hgo]. apply negb_true_iff in Hg.
    pose proof (handleRecv_ctl writeOk r s) as Hctl.
    rewrite (calm_goes_on r Hc Hg) in Hctl.
    cbn [receiveLoop].
    destruct (handleRecv writeOk r s) as [[t1 s1] c]. cbn [snd] in Hctl. subst c.
    destruct (IH s1 Hcalm Hgo) as (t2 & s2 & ->).
    exists (t1 ++ t2), s2. reflexivity.
Qed.

(** C7, as the code has it. Over a script with no receive error or error
    field, no CLOSE microphone mode and no quit/exit transcript, the loop
    keeps receiving as long as it meets no end-of-stream and no event with a
    result that has the END_OF_UTTERANCE event type or an unmanaged
    microphone mode; it ends at the first such event, leaving what follows
    it unread, and it does not end unless the script holds such an event. *)
Theorem loop_runs_until_end_of_turn_event :
  forall (writeOk : nat -> bool) (recvs : list Recv) (s : Proc),
    forallb calm recvs = true ->
    (forallb (fun r => negb (endsLoop r)) recvs = true ->
     exists t s', receiveLoop writeOk recvs s = (t, s', Receiving))
    /\ (forall pre r post,
          recvs = pre ++ r :: post ->
          forallb (fun r' => negb (endsLoop r')) pre = true ->
          endsLoop r = true ->
          exists tpre spre tr s' v,
            receiveLoop writeOk pre s = (tpre, spre, Receiving)
            /\ handleRecv writeOk r spre = (tr, s', Leave v)
            /\ receiveLoop writeOk recvs s = (tpre ++ tr, s', Ended v)
            /\ endOfTurnVerdict v)
    /\ (forall t s' v,
          receiveLoop writeOk recvs s = (t, s', Ended v) ->
          existsb endsLoop recvs = true).
Proof.
  intros writeOk recvs s Hcalm.
  split; [| split].
  - intros Hgo. now apply receiveLoop_goes_on.
  - intros pre r post -> Hgo Hend.
    rewrite forallb_app in Hcalm. apply andb_true_iff in Hcalm as [Hpre Hrest].
    cbn [forallb] in Hrest. apply andb_true_iff in Hrest as [Hr _].
    destruct (receiveLoop_goes_on writeOk pre s Hpre Hgo) as (tpre & spre & Hrun).
    destruct (calm_ends r Hr Hend) as (v & Hv & Hkind).
    pose proof (handleRecv_ctl writeOk r spre) as Hctl. rewrite Hv in Hctl.
    destruct (handleRecv writeOk r spre) as [[tr s'] c] eqn:Hbody.
    cbn [snd] in Hctl. subst c.
    exists tpre, spre, tr, s', v.
    split; [exact Hrun | split; [exact Hbody | split; [| exact Hkind]]].
    now apply receiveLoop_leave with (s' := spre).
  - intros t s' v Hrun.
    destruct (existsb endsLoop recvs) eqn:Hex; [reflexivity | exfalso].
    assert (Hgo : forallb (fun r => negb (endsLoop r)) recvs = true).
    { apply forallb_forall. intros r Hin. apply negb_true_iff.
      destruct (endsLoop r) eqn:Hr; [| reflexivity].
      assert (existsb endsLoop recvs = true) by (apply existsb_exists; eauto).
      congruence. }
    destruct (receiveLoop_goes_on writeOk recvs s Hcalm Hgo) as (t0 & s0 & Hrec).
    congruence.
Qed.

Lemma loop_runs_until_end_of_turn_event_witness :
  exists tpre spre tr s' v,
    receiveLoop (fun _ => true) [RecvMsg followOnEvent; RecvMsg nilResultEvent]
      (freshProc [])
    = (tpre, spre, Receiving)
    /\ handleRecv (fun _ => true) (RecvMsg endOfUtteranceEvent) spre = (tr, s', Leave v)
    /\ receiveLoop (fun _ => true) calmScript (freshProc []) = (tpre ++ tr, s', Ended v)
    /\ endOfTurnVerdict v.
Proof.
  apply (proj1 (proj2 (loop_runs_until_end_of_turn_event
                         (fun _ => true) calmScript (freshProc []) eq_refl))
               [RecvMsg followOnEvent; RecvMsg nilResultEvent]
               (RecvMsg endOfUtteranceEvent)
               [RecvMsg followOnEvent]).
  - reflexivity.
  - reflexivity.
  - reflexivity.
Defined.

(** The sentence of the spec does not hold on both sides. A script with no
    error and no CLOSE mode ends at an event that is neither end-of-stream
    nor END_OF_UTTERANCE nor of an unknown microphone mode, when that event
    has the transcript "quit"; and the loop goes past an END_OF_UTTERANCE
    event whose result is nil. *)
Lemma loop_end_is_not_as_claimed :
  receiveLoop (fun _ => true) [RecvMsg quitFollowOnEvent; RecvMsg followOnEvent]
    (freshProc [])
  = (quitLines (resultOf "quit" None DIALOG_FOLLOW_ON), freshProc [], Ended StopQuit)
  /\ receiveLoop (fun _ => true)
       [RecvMsg (eventOf None END_OF_UTTERANCE None); RecvMsg followOnEvent]
       (freshProc [])
     = ([Log NilResult] ++ resultLines (resultOf "hello" None DIALOG_FOLLOW_ON)
          ++ [Log (Transcript "hello"); Log ContinuingDialog],
        freshProc [], Receiving).
Proof. split; vm_compute; reflexivity. Qed.

(** ** The prompt between Turns *)

Lemma turnEndOf_ctl (r : Recv) (how : TurnEnd) :
  turnEndOf r = Some how -> ctlOf r = Leave (verdictOfEnd how).
Proof.
  destruct r as [| err | resp]; cbn [turnEndOf ctlOf].
  - intros [= <-]. reflexivity.
  - discriminate.
  - destruct (Error resp); [discriminate |].
    destruct (Result resp) as [result |]; [| discriminate].
    destruct (isQuit (SpokenRequestText result)); [discriminate |].
    destruct (isEndOfUtterance (Event resp)); [intros [= <-]; reflexivity |].
    destruct (MicMode result); intros [= <-]; reflexivity.
Qed.

(** C5, as the code has it. A Turn that ends on a CLOSE or an unmanaged
    microphone mode, with the capture task taking the stop signal, goes
    through [stop(false)]: stop signal, cancel, then the blocking prompt,
    and only after the prompt the next [start]. A Turn that ends on
    END_OF_UTTERANCE, with the capture task taking the stop signal, and a
    Turn that ends on end-of-stream, whatever the capture task does, return
    to the caller: no prompt is issued and no new Turn is started. Up to its
    end the Turn itself has only logged and played audio, and has issued no
    prompt. *)
Theorem prompt_follows_stop_only :
  forall (turn : Turn) (later : list Turn) (cs : list byte)
         (pre post : list Recv) (r : Recv) (how : TurnEnd) (tpre : Trace) (spre : Proc),
    setupOk turn ->
    (how <> ByEndOfStream -> micAlive turn = true) ->
    recvs turn = pre ++ r :: post ->
    receiveLoop (writeOk turn) pre (freshProc cs) = (tpre, spre, Receiving) ->
    turnEndOf r = Some how ->
    exists tr sev,
      handleRecv (writeOk turn) r spre = (tr, sev, Leave (verdictOfEnd how))
      /\ allLocal (tpre ++ tr)
      /\ ~ In PressEnter (preamble cs ++ tpre ++ tr)
      /\ match how with
         | ByClose | ByUnmanagedMode =>
             start (turn :: later) cs
             = andThen (done (preamble cs ++ tpre ++ tr ++ [MicStop; Cancel; PressEnter])
                             Returned (conversationState sev))
                       (fun cs' => andThen (start later cs')
                                           (done [Log BlankLine] Returned))
         | ByEndOfStream =>
             start (turn :: later) cs
             = (preamble cs ++ tpre ++ tr, conversationState sev, Returned)
         | ByEndOfUtterance =>
             start (turn :: later) cs
             = (preamble cs ++ tpre ++ tr ++ [MicStop], conversationState sev, Returned)
         end.
Proof.
  intros turn later cs pre post r how tpre spre Hsetup Hmic Hrecvs Hpre Hhow.
  pose proof (handleRecv_ctl (writeOk turn) r spre) as Hctl.
  rewrite (turnEndOf_ctl r how Hhow) in Hctl.
  pose proof (handleRecv_local (writeOk turn) r spre) as Hlocal.
  pose proof (receiveLoop_local (writeOk turn) pre (freshProc cs)) as Hprelocal.
  rewrite Hpre in Hprelocal. cbn [fst] in Hprelocal.
  destruct (handleRecv (writeOk turn) r spre) as [[tr sev] c] eqn:Hbody.
  cbn [fst snd] in Hctl, Hlocal. subst c.
  exists tr, sev.
  split; [reflexivity | split; [now apply allLocal_app | split]].
  { intros Hin. apply in_app_or in Hin as [Hin | Hin].
    - rewrite preamble_eq in Hin. destruct cs; cbn in Hin;
        repeat (destruct Hin as [Hin | Hin]; [discriminate |]); exact Hin.
    - revert Hin. apply allLocal_not_in; [now apply allLocal_app | reflexivity]. }
  assert (Hloop :
    receiveLoop (writeOk turn) (recvs turn) (freshProc cs)
    = (tpre ++ tr, sev, Ended (verdictOfEnd how))).
  { rewrite Hrecvs. now apply receiveLoop_leave with (s' := spre). }
  destruct how; cbn [verdictOfEnd] in Hloop.
  - rewrite (start_ended turn later cs Hsetup _ _ _ Hloop).
    cbn [leaveLoop]. unfold andThen, done. rewrite ?app_nil_r. reflexivity.
  - rewrite (start_ended turn later cs Hsetup _ _ _ Hloop).
    cbn [leaveLoop]. rewrite Hmic by discriminate. unfold andThen, done.
    rewrite <- !app_assoc. reflexivity.
  - assert (Halive : micAlive turn = true) by (apply Hmic; discriminate).
    rewrite (start_prompted turn later cs Hsetup Halive _ _ Hloop).
    rewrite <- !app_assoc. reflexivity.
  - assert (Halive : micAlive turn = true) by (apply Hmic; discriminate).
    rewrite (start_prompted turn later cs Hsetup Halive _ _ Hloop).
    rewrite <- !app_assoc. reflexivity.
Qed.

Lemma prompt_follows_stop_only_witness :
  (exists tr sev,
     handleRecv (fun _ => true) (RecvMsg helloThenClose) (freshProc [])
     = (tr, sev, Leave (verdictOfEnd ByClose))
     /\ allLocal ([] ++ tr)
     /\ ~ In PressEnter (preamble [] ++ [] ++ tr)
     /\ start [healthyTurn [RecvMsg helloThenClose]; healthyTurn [RecvEOF]] []
        = andThen (done (preamble [] ++ [] ++ tr ++ [MicStop; Cancel; PressEnter])
                        Returned (conversationState sev))
                  (fun cs' => andThen (start [healthyTurn [RecvEOF]] cs')
                                      (done [Log BlankLine] Returned)))
  /\ (exists tr sev,
        handleRecv (fun _ => true) RecvEOF (freshProc [])
        = (tr, sev, Leave (verdictOfEnd ByEndOfStream))
        /\ allLocal ([] ++ tr)
        /\ ~ In PressEnter (preamble [] ++ [] ++ tr)
        /\ start [deadMicTurn [RecvEOF]; healthyTurn [RecvEOF]] []
           = (preamble [] ++ [] ++ tr, conversationState sev, Returned)).
Proof.
  split.
  - apply (prompt_follows_stop_only
             (healthyTurn [RecvMsg helloThenClose]) [healthyTurn [RecvEOF]] []
             [] [] (RecvMsg helloThenClose) ByClose [] (freshProc [])).
    + repeat split.
    + intros _. reflexivity.
    + reflexivity.
    + reflexivity.
    + reflexivity.
  - apply (prompt_follows_stop_only
             (deadMicTurn [RecvEOF]) [healthyTurn [RecvEOF]] []
             [] [] RecvEOF ByEndOfStream [] (freshProc [])).
    + repeat split.
    + intros Hne. exfalso. now apply Hne.
    + reflexivity.
    + reflexivity.
    + reflexivity.
Defined.

(** The sentence of the spec does not hold: a Turn that ends on end-of-stream,
    or on END_OF_UTTERANCE, ends without a quit/exit transcript and yet no
    prompt is issued; [start] returns, though a further Turn could run. *)
Lemma end_of_stream_turn_is_not_prompted :
  (outcomeOf (main [healthyTurn [RecvEOF]; healthyTurn [RecvEOF]]) = Returned
   /\ ~ In PressEnter (traceOf (main [healthyTurn [RecvEOF]; healthyTurn [RecvEOF]])))
  /\ (outcomeOf (main [healthyTurn [RecvMsg endOfUtteranceEvent]; healthyTurn [RecvEOF]])
      = Returned
      /\ ~ In PressEnter
            (traceOf (main [healthyTurn [RecvMsg endOfUtteranceEvent];
                            healthyTurn [RecvEOF]]))).
Proof.
  split; (split; [reflexivity |]); vm_compute;
    intros H; repeat (destruct H as [H | H]; [discriminate |]); exact H.
Qed.

(** ** Exit status *)

Lemma andThen_tail_exit (r : Run) (t : Trace) (c : Z) :
  outcomeOf (andThen r (done t Returned)) = Exited c ->
  outcomeOf r = Exited c /\ andThen r (done t Returned) = r.
Proof.
  destruct r as [[t0 cs] o]. unfold outcomeOf, andThen, done. cbn [snd].
  destruct o; intros H; try discriminate; split; first [exact H | reflexivity].
Qed.

(** The loop is left through [stop(true)] only right after the lines of a
    quit/exit transcript. *)
Lemma receiveLoop_quit_lines (writeOk : nat -> bool) (recvs : list Recv) :
  forall s t s',
    receiveLoop writeOk recvs s = (t, s', Ended StopQuit) ->
    exists t0 result,
      t = t0 ++ quitLines result /\ isQuit (SpokenRequestText result) = true.
Proof.
  induction recvs as [| r later IH]; intros s t s' Hrun; [discriminate |].
  cbn [receiveLoop] in Hrun.
  pose proof (handleRecv_ctl writeOk r s) as Hctl.
  destruct (handleRecv writeOk r s) as [[t1 s1] [[] | v]] eqn:Hbody; cbn [snd] in Hctl.
  - destruct (receiveLoop writeOk later s1) as [[t2 s2] e] eqn:Hrec.
    injection Hrun as <- <- ->.
    destruct (IH _ _ _ Hrec) as (t0 & result & -> & Hq).
    exists (t1 ++ t0), result. split; [now rewrite app_assoc | exact Hq].
  - injection Hrun as <- <- ->.
    destruct r as [| err | resp]; cbn [ctlOf] in Hctl; try discriminate.
    destruct (Error resp) as [err |] eqn:Herr; [discriminate |].
    destruct (Result resp) as [result |] eqn:Hres; [| discriminate].
    destruct (isQuit (SpokenRequestText result)) eqn:Hq.
    + cbn [handleRecv] in Hbody.
      rewrite Herr, Hres, handleResult_quit in Hbody by exact Hq.
      injection Hbody as <- _. exists [], result. split; [reflexivity | exact Hq].
    + destruct (isEndOfUtterance (Event resp)); [discriminate |].
      destruct (MicMode result); discriminate.
Qed.

(** [os.Exit(0)] is reached only from [stop(true)], in this Turn or in one
    started from a prompt. *)
Lemma start_exit_zero (world : list Turn) :
  forall cs,
    outcomeOf (start world cs) = Exited 0 ->
    exists t0 result,
      traceOf (start world cs) = t0 ++ quitLines result ++ [MicStop; Cancel]
      /\ isQuit (SpokenRequestText result) = true.
Proof.
  induction world as [| turn later IH]; intros cs Hexit; [discriminate |].
  cbn [start] in *. unfold runTurn in *.
  destruct (dialOk turn); cbn [negb] in *; [| discriminate].
  destruct (converseOk turn); cbn [negb] in *; [| discriminate].
  destruct (sendOk turn); cbn [negb] in *; [| discriminate].
  destruct (playback turn); try discriminate.
  destruct (receiveLoop (writeOk turn) (recvs turn) (freshProc cs)) as [[t s] [v |]] eqn:Hloop;
    [| discriminate].
  rewrite andThen_done in *.
  unfold outcomeOf at 1 in Hexit. cbn [snd] in Hexit.
  unfold traceOf at 1. cbn [fst].
  match goal with
  | |- exists _ _, ?h ++ _ = _ /\ _ => set (head := h)
  end.
  destruct v; cbn [leaveLoop] in *;
    try (unfold done, outcomeOf in Hexit; cbn [snd] in Hexit; discriminate Hexit).
  - (* stop(true) *)
    unfold stop in *. destruct (micAlive turn);
      [| unfold done, outcomeOf in Hexit; cbn [snd] in Hexit; discriminate Hexit].
    destruct (receiveLoop_quit_lines _ _ _ _ _ Hloop) as (t0 & result & Ht & Hq).
    exists ((([WithDeadline 240; DialGRPC]
                ++ (if (0 <? List.length cs)%nat then [Log ContinuingConversation] else [])
                ++ [Converse])
               ++ [SendConfig (converseConfig cs); GoCapture; OpenPlayback])
            ++ [Log Listening] ++ t0), result.
    split; [| exact Hq].
    subst head t. rewrite andThen_done. unfold done, traceOf. cbn [fst].
    rewrite app_nil_r, <- !app_assoc. reflexivity.
  - (* micStopCh <- true; return *)
    destruct (micAlive turn);
      unfold done, outcomeOf in Hexit; cbn [snd] in Hexit; discriminate Hexit.
  - (* stop(false) *)
    unfold stop, askTheUser in *. destruct (micAlive turn);
      [| unfold done, outcomeOf in Hexit; cbn [snd] in Hexit; discriminate Hexit].
    rewrite !andThen_done in *. unfold outcomeOf at 1 2 in Hexit. cbn [snd] in Hexit.
    apply andThen_tail_exit in Hexit as [Hexit Hsame].
    destruct (IH _ Hexit) as (t0 & result & Ht0 & Hq).
    exists (head ++ [MicStop; Cancel] ++ [PressEnter] ++ t0), result.
    split; [| exact Hq].
    unfold traceOf at 1 2. cbn [fst]. rewrite Hsame, Ht0.
    rewrite <- !app_assoc. reflexivity.
Qed.

(** C6, as the code has it. [os.Exit(0)] is reached only through a
    quit/exit transcript: a run that ends in it has, as its last effects,
    the lines of that transcript and [stop(true)]; and a quit/exit
    transcript handled while the capture task takes the stop signal does end
    the process with code 0. The process also ends with status 0 when the
    first Turn returns to [main]: a connection failure is logged and [start]
    returns, and so does a Turn that meets end-of-stream. *)
Theorem process_exit_status :
  forall (world : list Turn) (cs : list byte),
    (outcomeOf (start world cs) = Exited 0 ->
     exists t0 result,
       traceOf (start world cs) = t0 ++ quitLines result ++ [MicStop; Cancel]
       /\ (SpokenRequestText result = "quit"%string
           \/ SpokenRequestText result = "exit"%string))
    /\ (forall turn later pre post resp result tpre spre,
          world = turn :: later ->
          setupOk turn ->
          micAlive turn = true ->
          recvs turn = pre ++ RecvMsg resp :: post ->
          receiveLoop (writeOk turn) pre (freshProc cs) = (tpre, spre, Receiving) ->
          Error resp = None ->
          Result resp = Some result ->
          SpokenRequestText result = "quit"%string
          \/ SpokenRequestText result = "exit"%string ->
          exitStatus (outcomeOf (start world cs)) = Some 0%Z)
    /\ (forall turn later,
          world = turn :: later ->
          dialOk turn = false ->
          start world cs
          = ([WithDeadline 240; DialGRPC; Log FailedToAcquireConnection], cs, Returned)
          /\ exitStatus (outcomeOf (start world cs)) = Some 0%Z)
    /\ (forall turn later t s,
          world = turn :: later ->
          setupOk turn ->
          receiveLoop (writeOk turn) (recvs turn) (freshProc cs) = (t, s, Ended BreakLoop) ->
          start world cs = (preamble cs ++ t, conversationState s, Returned)
          /\ exitStatus (outcomeOf (start world cs)) = Some 0%Z).
Proof.
  intros world cs. split; [| split; [| split]].
  - intros Hexit.
    destruct (start_exit_zero world cs Hexit) as (t0 & result & Ht & Hq).
    exists t0, result. split; [exact Ht | now apply isQuit_spec].
  - intros turn later pre post resp result tpre spre -> Hsetup Hmic Hrecvs Hpre Herr Hres Hq.
    apply isQuit_spec in Hq.
    rewrite (start_quit turn later cs pre post resp result tpre spre); auto.
  - intros turn later -> Hd.
    assert (Hrun : start (turn :: later) cs
                   = ([WithDeadline 240; DialGRPC; Log FailedToAcquireConnection], cs,
                      Returned))
      by (cbn [start]; unfold runTurn; rewrite Hd; reflexivity).
    rewrite Hrun. split; reflexivity.
  - intros turn later t s -> Hsetup Hloop.
    assert (Hrun : start (turn :: later) cs = (preamble cs ++ t, conversationState s, Returned)).
    { rewrite (start_ended turn later cs Hsetup t s BreakLoop Hloop).
      cbn [leaveLoop]. unfold andThen, done. now rewrite app_nil_r. }
    rewrite Hrun. split; reflexivity.
Qed.

Lemma process_exit_status_witness :
  (exists t0 result,
     traceOf (start [healthyTurn [RecvMsg helloThenClose]; healthyTurn [RecvMsg quitEvent]] [])
     = t0 ++ quitLines result ++ [MicStop; Cancel]
     /\ (SpokenRequestText result = "quit"%string
         \/ SpokenRequestText result = "exit"%string))
  /\ exitStatus (outcomeOf (start [healthyTurn [RecvMsg quitEvent]] [])) = Some 0%Z
  /\ (start [noConnectionTurn; healthyTurn [RecvEOF]] []
      = ([WithDeadline 240; DialGRPC; Log FailedToAcquireConnection], [], Returned)
      /\ exitStatus (outcomeOf (start [noConnectionTurn; healthyTurn [RecvEOF]] []))
         = Some 0%Z).
Proof.
  split; [| split].
  - apply (proj1 (process_exit_status
                    [healthyTurn [RecvMsg helloThenClose]; healthyTurn [RecvMsg quitEvent]]
                    [])).
    reflexivity.
  - apply (proj1 (proj2 (process_exit_status [healthyTurn [RecvMsg quitEvent]] []))
                 (healthyTurn [RecvMsg quitEvent]) [] [] [] quitEvent
                 (resultOf "quit" (Some [x01; x02]) CLOSE_MICROPHONE) [] (freshProc [])).
    + reflexivity.
    + repeat split.
    + reflexivity.
    + reflexivity.
    + reflexivity.
    + reflexivity.
    + reflexivity.
    + left. reflexivity.
  - apply (proj1 (proj2 (proj2 (process_exit_status
                                  [noConnectionTurn; healthyTurn [RecvEOF]] [])))
                 noConnectionTurn [healthyTurn [RecvEOF]]).
    + reflexivity.
    + reflexivity.
Defined.

(** The sentence of the spec does not hold: a connection failure ends the
    process with status 0, not 1, and so does end-of-stream in the first
    Turn; in neither run was a quit requested. *)
Lemma status_zero_without_quit :
  (exitStatus (outcomeOf (main [noConnectionTurn])) = Some 0%Z
   /\ traceOf (main [noConnectionTurn])
      = [WithDeadline 240; DialGRPC; Log FailedToAcquireConnection])
  /\ (exitStatus (outcomeOf (main [healthyTurn [RecvEOF]])) = Some 0%Z
      /\ ~ In (Log GotItSeeYouLater) (traceOf (main [healthyTurn [RecvEOF]]))).
Proof.
  split; split; try reflexivity.
  vm_compute. intros H; repeat (destruct H as [H | H]; [discriminate |]); exact H.
Qed.

(** The two paths written to end in [os.Exit(1)] do not get there: they call
    [stop(false)] before the capture goroutine exists, and the send on
    [micStopCh] has no receiver. *)
Lemma setup_failure_blocks_in_stop :
  main [noConversationTurn]
  = ([WithDeadline 240; DialGRPC; Converse; Log FailedToSetupTheConversation], [], Blocked)
  /\ main [noConfigSentTurn]
     = ([WithDeadline 240; DialGRPC; Converse; SendConfig (converseConfig []);
         Log FailedToConnectToGoogleAssistant], [], Blocked).
Proof. split; reflexivity. Qed.

(** * Further properties of the code *)

(** ** The 16-bit little-endian codec *)

Lemma byteOf_value (v : Z) : Z.of_N (Byte.to_N (byteOf v)) = (v mod 256)%Z.
Proof.
  unfold byteOf.
  assert (Hrange : (0 <= v mod 256 < 256)%Z) by (apply Z.mod_pos_bound; lia).
  destruct (Byte.of_N (Z.to_N (v mod 256))) as [b |] eqn:Hb.
  - apply Byte.to_of_N in Hb. rewrite Hb. apply Z2N.id. lia.
  - apply Byte.of_N_None_iff in Hb. lia.
Qed.

Lemma byteOf_byte (b : byte) : byteOf (Z.of_N (Byte.to_N b)) = b.
Proof.
  unfold byteOf.
  pose proof (Byte.to_N_bounded b) as Hb.
  rewrite Z.mod_small by lia.
  rewrite N2Z.id, Byte.of_to_N. reflexivity.
Qed.

Lemma lor_shiftl_8 (a b : Z) :
  (0 <= a < 256)%Z -> Z.lor a (Z.shiftl b 8) = (a + 256 * b)%Z.
Proof.
  intros Ha.
  assert (Hland : Z.land a (Z.shiftl b 8) = 0%Z).
  { apply Z.bits_inj'. intros n Hn.
    rewrite Z.land_spec, Z.bits_0.
    destruct (Z.lt_ge_cases n 8) as [Hlow | Hhigh].
    - rewrite Z.shiftl_spec_low by exact Hlow. apply andb_false_r.
    - replace a with (a mod 2 ^ 8)%Z by (apply Z.mod_small; lia).
      rewrite Z.mod_pow2_bits_high by lia. reflexivity. }
  rewrite <- Z.lxor_lor, <- Z.add_nocarry_lxor by exact Hland.
  rewrite Z.shiftl_mul_pow2 by lia. lia.
Qed.

Lemma int16LE_value (lo hi : byte) :
  int16LE lo hi
  = (let u := (Z.of_N (Byte.to_N lo) + 256 * Z.of_N (Byte.to_N hi))%Z in
     if (u <? 32768)%Z then u else (u - 65536)%Z).
Proof.
  unfold int16LE. pose proof (Byte.to_N_bounded lo).
  rewrite lor_shiftl_8 by lia. reflexivity.
Qed.

Lemma int16LE_range (lo hi : byte) : isInt16 (int16LE lo hi).
Proof.
  rewrite int16LE_value. unfold isInt16.
  pose proof (Byte.to_N_bounded lo). pose proof (Byte.to_N_bounded hi).
  cbv zeta. destruct (Z.ltb_spec (Z.of_N (Byte.to_N lo) + 256 * Z.of_N (Byte.to_N hi)) 32768); lia.
Qed.

Lemma putInt16LE_decoded (v : Z) :
  isInt16 v ->
  exists lo hi, putInt16LE v = [lo; hi] /\ int16LE lo hi = v.
Proof.
  intros Hv. unfold isInt16 in Hv. unfold putInt16LE. cbv zeta.
  eexists _, _. split; [reflexivity |].
  rewrite int16LE_value, !byteOf_value. cbv zeta.
  rewrite Z.shiftr_div_pow2 by lia.
  set (u := (v mod 65536)%Z).
  assert (Hu : (0 <= u < 65536)%Z) by (apply Z.mod_pos_bound; lia).
  assert (Hdiv : (0 <= u / 2 ^ 8 < 256)%Z).
  { split; [apply Z.div_pos; lia | apply Z.div_lt_upper_bound; lia]. }
  rewrite (Z.mod_small (u / 2 ^ 8)) by lia.
  assert (Hsplit : (u mod 256 + 256 * (u / 2 ^ 8) = u)%Z).
  { change (2 ^ 8)%Z with 256%Z. pose proof (Z.div_mod u 256). lia. }
  rewrite Hsplit.
  destruct (Z.ltb_spec u 32768) as [Hsmall | Hbig]; subst u.
  - destruct (Z_lt_le_dec v 0) as [Hneg | Hpos].
    + replace (v mod 65536)%Z with (v + 65536)%Z in Hsmall
        by (apply Z.mod_unique with (q := (-1)%Z); lia). lia.
    + apply Z.mod_small. lia.
  - destruct (Z_lt_le_dec v 0) as [Hneg | Hpos].
    + replace (v mod 65536)%Z with (v + 65536)%Z
        by (apply Z.mod_unique with (q := (-1)%Z); lia). lia.
    + rewrite Z.mod_small in Hbig by lia. lia.
Qed.

Lemma int16LE_encoded (lo hi : byte) : putInt16LE (int16LE lo hi) = [lo; hi].
Proof.
  pose proof (Byte.to_N_bounded lo) as Hlo. pose proof (Byte.to_N_bounded hi) as Hhi.
  set (a := Z.of_N (Byte.to_N lo)). set (b := Z.of_N (Byte.to_N hi)).
  assert (Hu : (int16LE lo hi mod 65536 = a + 256 * b)%Z).
  { rewrite int16LE_value. cbv zeta. fold a b.
    destruct (Z.ltb_spec (a + 256 * b) 32768).
    - apply Z.mod_small. lia.
    - symmetry. apply Z.mod_unique with (q := (-1)%Z); lia. }
  unfold putInt16LE. cbv zeta. rewrite Hu.
  rewrite Z.shiftr_div_pow2 by lia. change (2 ^ 8)%Z with 256%Z.
  assert (Hlow : ((a + 256 * b) mod 256 = a)%Z).
  { symmetry. apply Z.mod_unique with (q := b); lia. }
  assert (Hhigh : ((a + 256 * b) / 256 = b)%Z).
  { symmetry. apply Z.div_unique with (r := a); lia. }
  assert (Hb1 : byteOf (a + 256 * b) = lo).
  { unfold byteOf. rewrite Hlow. unfold a.
    rewrite N2Z.id, Byte.of_to_N. reflexivity. }
  rewrite Hb1, Hhigh. unfold b. rewrite byteOf_byte. reflexivity.
Qed.

Lemma decodeInt16s_putInt16LE (v : Z) (rest : list byte) :
  isInt16 v -> decodeInt16s (putInt16LE v ++ rest) = v :: decodeInt16s rest.
Proof.
  intros Hv. destruct (putInt16LE_decoded v Hv) as (lo & hi & -> & Hback).
  cbn [app decodeInt16s]. now rewrite Hback.
Qed.

Lemma encodeInt16s_length (samples : list Z) :
  List.length (encodeInt16s samples) = 2 * List.length samples.
Proof.
  induction samples as [| v rest IH]; [reflexivity |].
  cbn [encodeInt16s]. unfold putInt16LE. cbn [app List.length]. rewrite IH. lia.
Qed.

Lemma decode_encode_samples (samples : list Z) :
  Forall isInt16 samples -> decodeInt16s (encodeInt16s samples) = samples.
Proof.
  intros Hall. induction Hall as [| v rest Hv _ IH]; [reflexivity |].
  cbn [encodeInt16s]. rewrite decodeInt16s_putInt16LE by exact Hv. now rewrite IH.
Qed.



(** X2. A byte sequence of even length is given back by decoding it into
    16-bit samples and encoding these again: decoding loses nothing. *)
Theorem encode_of_decoded_bytes :
  forall (n : nat) (bytes : list byte),
    List.length bytes = 2 * n ->
    encodeInt16s (decodeInt16s bytes) = bytes.
Proof.
  induction n as [| n IH]; intros bytes Hlen.
  - destruct bytes; [reflexivity | discriminate].
  - destruct bytes as [| lo [| hi rest]]; cbn [List.length] in Hlen; try lia.
    cbn [decodeInt16s encodeInt16s]. rewrite int16LE_encoded.
    cbn [app]. do 2 f_equal. apply IH. lia.
Qed.

Lemma encode_of_decoded_bytes_witness :
  encodeInt16s (decodeInt16s [x01; x02; xff; xff; x00; x80]) = [x01; x02; xff; xff; x00; x80].
Proof.
  apply (encode_of_decoded_bytes 3 [x01; x02; xff; xff; x00; x80]). reflexivity.
Defined.

(** The decoder on any bytes: every sample is a 16-bit signed value, and
    an odd last byte gives no sample. *)
Theorem decoded_samples_fit_int16 :
  forall bytes : list byte,
    Forall isInt16 (decodeInt16s bytes)
    /\ List.length (decodeInt16s bytes) = Nat.div2 (List.length bytes).
Proof.
  assert (Hgen : forall n bytes, List.length bytes <= n ->
            Forall isInt16 (decodeInt16s bytes)
            /\ List.length (decodeInt16s bytes) = Nat.div2 (List.length bytes)).
  { induction n as [| n IH]; intros bytes Hlen.
    - destruct bytes; [split; [constructor | reflexivity] | cbn in Hlen; lia].
    - destruct bytes as [| lo [| hi rest]].
      + split; [constructor | reflexivity].
      + split; [constructor | reflexivity].
      + cbn [List.length] in Hlen. destruct (IH rest) as [Hall Hcount]; [lia |].
        cbn [decodeInt16s List.length Nat.div2]. split.
        * constructor; [apply int16LE_range | exact Hall].
        * now rewrite Hcount. }
  intros bytes. now apply (Hgen (List.length bytes)).
Qed.

(** ** The capture goroutine *)

Lemma audioSends_app (t1 t2 : list MicEffect) :
  audioSends (t1 ++ t2) = audioSends t1 ++ audioSends t2.
Proof.
  induction t1 as [| e t1 IH]; [reflexivity |].
  destruct e; cbn [app audioSends]; rewrite IH; reflexivity.
Qed.

Section CaptureFacts.

Variable mic : Mic.

(** The audio messages of one iteration, its read having given [bufIn]. *)
Lemma captureLoop_step (tick : Tick) (later : list Tick) (bufIn : list Z) :
  micRead tick = Some bufIn ->
  stopWaiting tick = false ->
  snd (captureLoop mic (tick :: later)) = snd (captureLoop mic later)
  /\ audioSends (fst (captureLoop mic (tick :: later)))
     = encodeInt16s bufIn :: audioSends (fst (captureLoop mic later))
  /\ (forall e, e = StopMic \/ e = CloseMic ->
        In e (fst (captureLoop mic (tick :: later))) ->
        In e (fst (captureLoop mic later))).
Proof.
  intros Hread Hstop. cbn [captureLoop]. rewrite Hread, Hstop.
  destruct (captureLoop mic later) as [t e]. cbn [fst snd].
  split; [reflexivity | split].
  - rewrite !audioSends_app. cbn [audioSends app].
    destruct (audioSent tick), (Debug mic); reflexivity.
  - intros e0 He0 Hin.
    destruct (audioSent tick), (Debug mic); cbn [app] in Hin;
      repeat (destruct Hin as [Hin | Hin];
              [destruct He0 as [-> | ->]; discriminate |]);
      exact Hin.
Qed.

Lemma captureLoop_keeps (pre rest : list Tick) :
  forallb keepsCapturing pre = true ->
  snd (captureLoop mic (pre ++ rest)) = snd (captureLoop mic rest)
  /\ audioSends (fst (captureLoop mic (pre ++ rest)))
     = map encodeInt16s (buffersOf pre) ++ audioSends (fst (captureLoop mic rest))
  /\ (forall e, e = StopMic \/ e = CloseMic ->
        In e (fst (captureLoop mic (pre ++ rest))) ->
        In e (fst (captureLoop mic rest))).
Proof.
  induction pre as [| tick pre IH]; intros Hkeep.
  - cbn [app buffersOf map]. auto.
  - cbn [forallb] in Hkeep. apply andb_true_iff in Hkeep as [Htick Hpre].
    unfold keepsCapturing in Htick.
    destruct (micRead tick) as [bufIn |] eqn:Hread; [| discriminate].
    apply negb_true_iff in Htick.
    destruct (IH Hpre) as (Hend & Hsends & Hdev).
    destruct (captureLoop_step tick (pre ++ rest) bufIn Hread Htick)
      as (Hend1 & Hsends1 & Hdev1).
    cbn [app buffersOf]. rewrite Hread. cbn [map app].
    split; [congruence | split].
    + rewrite Hsends1, Hsends. reflexivity.
    + intros e He Hin. apply (Hdev e He). now apply (Hdev1 e He).
Qed.

Lemma captureLoop_prefix (pre rest : list Tick) :
  forallb keepsCapturing pre = true ->
  exists t1,
    fst (captureLoop mic (pre ++ rest)) = t1 ++ fst (captureLoop mic rest).
Proof.
  induction pre as [| tk pre IH]; intros Hkeep; [exists []; reflexivity |].
  cbn [forallb] in Hkeep. apply andb_true_iff in Hkeep as [Htk Hpre].
  unfold keepsCapturing in Htk.
  destruct (micRead tk) as [b |] eqn:Hb; [| discriminate].
  apply negb_true_iff in Htk.
  destruct (IH Hpre) as [t1 Ht1].
  cbn [app captureLoop]. rewrite Hb, Htk.
  destruct (captureLoop mic (pre ++ rest)) as [t e]. cbn [fst] in *.
  rewrite Ht1.
  exists (([ReadMic; SendAudioIn (encodeInt16s b)]
             ++ (if audioSent tk then [] else [MicLog CouldNotSendAudio]))
          ++ (if Debug mic then [PrintDot] else []) ++ t1).
  rewrite <- !app_assoc. reflexivity.
Qed.

Lemma capture_running :
  micOpenOk mic = true ->
  micStartOk mic = true ->
  capture mic = ([OpenMic; StartMic] ++ fst (captureLoop mic (ticks mic)),
                 snd (captureLoop mic (ticks mic))).
Proof.
  intros Hopen Hstart. unfold capture. rewrite Hopen, Hstart. cbn [negb].
  destruct (captureLoop mic (ticks mic)). reflexivity.
Qed.

Lemma captureLoop_sends_read (script : list Tick) (payload : list byte) :
  In payload (audioSends (fst (captureLoop mic script))) ->
  exists tick bufIn,
    In tick script /\ micRead tick = Some bufIn /\ payload = encodeInt16s bufIn.
Proof.
  induction script as [| tick later IH]; intros Hin; [contradiction |].
  cbn [captureLoop] in Hin.
  destruct (micRead tick) as [bufIn |] eqn:Hread; [| contradiction].
  destruct (stopWaiting tick).
  - cbn [fst] in Hin. rewrite !audioSends_app in Hin. cbn [audioSends app] in Hin.
    assert (Hone : payload = encodeInt16s bufIn).
    { destruct (audioSent tick), (micStopOk mic); cbn in Hin;
        destruct Hin as [Hin | Hin]; congruence || contradiction. }
    exists tick, bufIn. split; [now left | split; [exact Hread | exact Hone]].
  - destruct (captureLoop mic later) as [t e]. cbn [fst] in *.
    rewrite !audioSends_app in Hin. cbn [audioSends app] in Hin.
    assert (Hcases : payload = encodeInt16s bufIn \/ In payload (audioSends t)).
    { destruct (audioSent tick), (Debug mic); cbn in Hin;
        destruct Hin as [Hin | Hin]; auto. }
    destruct Hcases as [Hone | Hrest].
    + exists tick, bufIn. split; [now left | split; [exact Hread | exact Hone]].
    + destruct (IH Hrest) as (tk & b & Htk & Hb & Hp).
      exists tk, b. split; [now right | split; assumption].
Qed.

End CaptureFacts.

(** X4. A stop signal takes effect only at the [select] that follows a
    read and a send: the goroutine has then sent one audio message for each
    buffer read, the one of the current iteration included (so at least
    one, even if the signal was there from the start), and it ends by
    stopping and closing the stream; what the script holds after that
    iteration is not read. *)
Theorem stop_signal_ends_capture_after_frame :
  forall (mic : Mic) (pre post : list Tick) (tick : Tick) (bufIn : list Z),
    micOpenOk mic = true ->
    micStartOk mic = true ->
    ticks mic = pre ++ tick :: post ->
    forallb keepsCapturing pre = true ->
    micRead tick = Some bufIn ->
    stopWaiting tick = true ->
    snd (capture mic) = MicReturned
    /\ audioSends (fst (capture mic)) = map encodeInt16s (buffersOf pre ++ [bufIn])
    /\ List.length (audioSends (fst (capture mic))) = S (List.length pre)
    /\ exists t0,
         fst (capture mic)
         = t0 ++ [MicLog TurningOffTheMic; StopMic]
              ++ (if micStopOk mic then [] else [MicLog FailedToStopTheInput])
              ++ [CloseMic].
Proof.
  intros mic pre post tick bufIn Hopen Hstart Hticks Hkeep Hread Hstop.
  rewrite (capture_running mic Hopen Hstart), Hticks. cbn [fst snd].
  destruct (captureLoop_keeps mic pre (tick :: post) Hkeep) as (Hend & Hsends & _).
  assert (Hlast :
    captureLoop mic (tick :: post)
    = ([ReadMic; SendAudioIn (encodeInt16s bufIn)]
         ++ (if audioSent tick then [] else [MicLog CouldNotSendAudio])
         ++ [MicLog TurningOffTheMic; StopMic]
         ++ (if micStopOk mic then [] else [MicLog FailedToStopTheInput])
         ++ [CloseMic],
       MicReturned)).
  { cbn [captureLoop]. rewrite Hread, Hstop. now rewrite <- !app_assoc. }
  assert (Hcount : List.length (buffersOf pre) = List.length pre).
  { clear - Hkeep. induction pre as [| tk pre IH]; [reflexivity |].
    cbn [forallb] in Hkeep. apply andb_true_iff in Hkeep as [Htk Hpre].
    unfold keepsCapturing in Htk. cbn [buffersOf].
    destruct (micRead tk); [| discriminate]. cbn [List.length]. now rewrite IH. }
  assert (Hall :
    audioSends ([OpenMic; StartMic] ++ fst (captureLoop mic (pre ++ tick :: post)))
    = map encodeInt16s (buffersOf pre ++ [bufIn])).
  { cbn [app audioSends]. rewrite Hsends, Hlast. cbn [fst].
    rewrite map_app. f_equal.
    destruct (audioSent tick), (micStopOk mic); reflexivity. }
  split; [| split; [exact Hall | split]].
  - rewrite Hend, Hlast. reflexivity.
  - rewrite Hall, length_map, length_app, Hcount. cbn [List.length]. lia.
  - clear Hall Hsends Hend Hcount.
    destruct (captureLoop_prefix mic pre (tick :: post) Hkeep) as [t1 Ht1].
    rewrite Ht1, Hlast. cbn [fst].
    exists ([OpenMic; StartMic] ++ t1
              ++ [ReadMic; SendAudioIn (encodeInt16s bufIn)]
              ++ (if audioSent tick then [] else [MicLog CouldNotSendAudio])).
    rewrite <- !app_assoc. reflexivity.
Qed.

Lemma stop_signal_ends_capture_after_frame_witness :
  snd (capture (quietMic [frameTick [1; -1]%Z false false;
                          frameTick [2; -2]%Z true true;
                          frameTick [3; -3]%Z true false]))
  = MicReturned
  /\ audioSends (fst (capture (quietMic [frameTick [1; -1]%Z false false;
                                         frameTick [2; -2]%Z true true;
                                         frameTick [3; -3]%Z true false])))
     = map encodeInt16s (buffersOf [frameTick [1; -1]%Z false false] ++ [[2; -2]%Z])
  /\ List.length
       (audioSends (fst (capture (quietMic [frameTick [1; -1]%Z false false;
                                            frameTick [2; -2]%Z true true;
                                            frameTick [3; -3]%Z true false]))))
     = S (List.length [frameTick [1; -1]%Z false false])
  /\ exists t0,
       fst (capture (quietMic [frameTick [1; -1]%Z false false;
                               frameTick [2; -2]%Z true true;
                               frameTick [3; -3]%Z true false]))
       = t0 ++ [MicLog TurningOffTheMic; StopMic]
            ++ (if micStopOk (quietMic [frameTick [1; -1]%Z false false;
                                        frameTick [2; -2]%Z true true;
                                        frameTick [3; -3]%Z true false])
                then [] else [MicLog FailedToStopTheInput])
            ++ [CloseMic].
Proof.
  apply (stop_signal_ends_capture_after_frame
           (quietMic [frameTick [1; -1]%Z false false;
                      frameTick [2; -2]%Z true true;
                      frameTick [3; -3]%Z true false])
           [frameTick [1; -1]%Z false false] [frameTick [3; -3]%Z true false]
           (frameTick [2; -2]%Z true true) [2; -2]%Z); reflexivity.
Defined.

Section SoftSendFailure.

Variables mic mic' : Mic.

Lemma captureLoop_same_but_send (script script' : list Tick) :
  Forall2 sameButSend script script' ->
  snd (captureLoop mic script) = snd (captureLoop mic' script')
  /\ audioSends (fst (captureLoop mic script))
     = audioSends (fst (captureLoop mic' script')).
Proof.
  induction 1 as [| a b la lb [Hread Hstop] _ IH]; [split; reflexivity |].
  cbn [captureLoop]. rewrite <- Hread, <- Hstop.
  destruct (micRead a) as [bufIn |]; [| split; reflexivity].
  destruct (stopWaiting a).
  - cbn [fst snd]. split; [reflexivity |].
    rewrite !audioSends_app. cbn [audioSends app].
    destruct (audioSent a), (audioSent b), (micStopOk mic), (micStopOk mic'); reflexivity.
  - destruct IH as [Hend Hsends].
    destruct (captureLoop mic la) as [t e], (captureLoop mic' lb) as [t' e'].
    cbn [fst snd] in *. split; [exact Hend |].
    rewrite !audioSends_app. cbn [audioSends app]. rewrite Hsends.
    destruct (audioSent a), (audioSent b), (Debug mic), (Debug mic'); reflexivity.
Qed.

End SoftSendFailure.

(** X5. A failure to send an audio message is only logged: two runs of the
    goroutine that differ in which sends fail (and in the debug flag and the
    result of stopping the stream) send the same audio messages and end the
    same way. *)
Theorem send_failure_does_not_stop_capture :
  forall (mic mic' : Mic),
    micOpenOk mic = micOpenOk mic' ->
    micStartOk mic = micStartOk mic' ->
    Forall2 sameButSend (ticks mic) (ticks mic') ->
    snd (capture mic) = snd (capture mic')
    /\ audioSends (fst (capture mic)) = audioSends (fst (capture mic')).
Proof.
  intros mic mic' Hopen Hstart Hticks.
  unfold capture. rewrite <- Hopen, <- Hstart.
  destruct (micOpenOk mic); cbn [negb]; [| split; reflexivity].
  destruct (micStartOk mic); cbn [negb]; [| split; reflexivity].
  destruct (captureLoop_same_but_send mic mic' _ _ Hticks) as [Hend Hsends].
  destruct (captureLoop mic (ticks mic)) as [t e],
           (captureLoop mic' (ticks mic')) as [t' e'].
  cbn [fst snd app audioSends] in *. split; assumption.
Qed.

Lemma send_failure_does_not_stop_capture_witness :
  snd (capture (quietMic [frameTick [1; -1]%Z true false; frameTick [2; -2]%Z true true]))
  = snd (capture (quietMic [frameTick [1; -1]%Z false false; frameTick [2; -2]%Z false true]))
  /\ audioSends
       (fst (capture (quietMic [frameTick [1; -1]%Z true false;
                                frameTick [2; -2]%Z true true])))
     = audioSends
         (fst (capture (quietMic [frameTick [1; -1]%Z false false;
                                  frameTick [2; -2]%Z false true]))).
Proof.
  apply (send_failure_does_not_stop_capture
           (quietMic [frameTick [1; -1]%Z true false; frameTick [2; -2]%Z true true])
           (quietMic [frameTick [1; -1]%Z false false; frameTick [2; -2]%Z false true])).
  - reflexivity.
  - reflexivity.
  - repeat constructor.
Defined.

Lemma capture_sends_read (mic : Mic) (payload : list byte) :
  In payload (audioSends (fst (capture mic))) ->
  exists tick bufIn,
    In tick (ticks mic) /\ micRead tick = Some bufIn /\ payload = encodeInt16s bufIn.
Proof.
  unfold capture.
  destruct (micOpenOk mic); cbn [negb]; [| contradiction].
  destruct (micStartOk mic); cbn [negb]; [| contradiction].
  pose proof (captureLoop_sends_read mic (ticks mic) payload) as Hloop.
  destruct (captureLoop mic (ticks mic)) as [t e]. cbn [fst app audioSends] in *.
  exact Hloop.
Qed.

(** X6. Every audio message the goroutine sends is the little-endian
    encoding of a buffer it read from the microphone. When the reads fill the
    buffer of 8196 16-bit samples, each message holds 16392 bytes and decodes
    to the buffer read. *)
Theorem audio_messages_carry_buffers_read :
  forall (mic : Mic) (payload : list byte),
    (forall tick bufIn,
        In tick (ticks mic) -> micRead tick = Some bufIn ->
        List.length bufIn = bufInLen /\ Forall isInt16 bufIn) ->
    In payload (audioSends (fst (capture mic))) ->
    List.length payload = 2 * bufInLen
    /\ List.length payload = 16392
    /\ exists tick,
         In tick (ticks mic) /\ micRead tick = Some (decodeInt16s payload).
Proof.
  intros mic payload Hfull Hin.
  destruct (capture_sends_read mic payload Hin) as (tick & bufIn & Htick & Hread & ->).
  destruct (Hfull tick bufIn Htick Hread) as [Hlen Hint].
  assert (Hbytes : List.length (encodeInt16s bufIn) = 2 * bufInLen)
    by (rewrite encodeInt16s_length, Hlen; reflexivity).
  split; [exact Hbytes | split].
  - rewrite Hbytes. vm_compute. reflexivity.
  - exists tick. split; [exact Htick |].
    rewrite decode_encode_samples by exact Hint. exact Hread.
Qed.

Lemma audio_messages_carry_buffers_read_witness :
  List.length (encodeInt16s steadyBuffer) = 2 * bufInLen
  /\ List.length (encodeInt16s steadyBuffer) = 16392
  /\ exists tick,
       In tick (ticks steadyMic)
       /\ micRead tick = Some (decodeInt16s (encodeInt16s steadyBuffer)).
Proof.
  apply (audio_messages_carry_buffers_read steadyMic (encodeInt16s steadyBuffer)).
  - intros tick bufIn [<- | []] [= <-]. split.
    + unfold steadyBuffer. rewrite repeat_length. vm_compute. reflexivity.
    + apply Forall_forall. intros v Hv. apply repeat_spec in Hv. subst v.
      unfold isInt16. lia.
  - left. reflexivity.
Defined.


(** X8. A failed read of the microphone ends the capture for good: the
    buffers read before it have each been sent, nothing is sent after it,
    and the goroutine is left inside [stop(false)], so the [panic] written
    after that call is not reached. *)
Theorem read_failure_ends_capture :
  forall (mic : Mic) (pre post : list Tick) (tick : Tick),
    micOpenOk mic = true ->
    micStartOk mic = true ->
    ticks mic = pre ++ tick :: post ->
    forallb keepsCapturing pre = true ->
    micRead tick = None ->
    snd (capture mic) = MicStuckInStop
    /\ audioSends (fst (capture mic)) = map encodeInt16s (buffersOf pre)
    /\ exists t0,
         fst (capture mic)
         = t0 ++ [ReadMic; MicLog FailedToReadFromTheDefaultStream].
Proof.
  intros mic pre post tick Hopen Hstart Hticks Hkeep Hread.
  rewrite (capture_running mic Hopen Hstart), Hticks. cbn [fst snd].
  destruct (captureLoop_keeps mic pre (tick :: post) Hkeep) as (Hend & Hsends & _).
  destruct (captureLoop_prefix mic pre (tick :: post) Hkeep) as [t1 Ht1].
  assert (Hlast :
    captureLoop mic (tick :: post)
    = ([ReadMic; MicLog FailedToReadFromTheDefaultStream], MicStuckInStop))
    by (cbn [captureLoop]; rewrite Hread; reflexivity).
  rewrite Hlast in *. cbn [fst snd] in *.
  split; [exact Hend | split].
  - cbn [app audioSends]. rewrite Hsends. cbn [audioSends]. now rewrite app_nil_r.
  - exists ([OpenMic; StartMic] ++ t1). rewrite Ht1, <- app_assoc. reflexivity.
Qed.

Lemma read_failure_ends_capture_witness :
  snd (capture (quietMic [frameTick [1; -1]%Z true false; failedReadTick;
                          frameTick [2; -2]%Z true true]))
  = MicStuckInStop
  /\ audioSends (fst (capture (quietMic [frameTick [1; -1]%Z true false; failedReadTick;
                                         frameTick [2; -2]%Z true true])))
     = map encodeInt16s (buffersOf [frameTick [1; -1]%Z true false])
  /\ exists t0,
       fst (capture (quietMic [frameTick [1; -1]%Z true false; failedReadTick;
                               frameTick [2; -2]%Z true true]))
       = t0 ++ [ReadMic; MicLog FailedToReadFromTheDefaultStream].
Proof.
  apply (read_failure_ends_capture
           (quietMic [frameTick [1; -1]%Z true false; failedReadTick;
                      frameTick [2; -2]%Z true true])
           [frameTick [1; -1]%Z true false] [frameTick [2; -2]%Z true true]
           failedReadTick); reflexivity.
Defined.

(** ** The main flow: setup failures *)

(** X9. After a failure to set up the conversation or to send the
    configuration, the coordinator calls [stop(false)] before the capture
    goroutine exists: the send on [micStopCh] finds no receiver, so the run
    ends there, blocked, with no prompt, no exit code and the stored token
    unchanged; the [os.Exit(1)] written after the call is not reached. *)
Theorem setup_failure_blocks_before_exit :
  forall (turn : Turn) (later : list Turn) (cs : list byte),
    dialOk turn = true ->
    converseOk turn = false \/ sendOk turn = false ->
    start (turn :: later) cs
    = ([WithDeadline 240; DialGRPC] ++ resumeLine cs ++ [Converse]
         ++ (if converseOk turn
             then [SendConfig (converseConfig cs); Log FailedToConnectToGoogleAssistant]
             else [Log FailedToSetupTheConversation]),
       cs, Blocked)
    /\ exitStatus (outcomeOf (start (turn :: later) cs)) = None.
Proof.
  intros turn later cs Hd Hfail.
  assert (Hrun :
    start (turn :: later) cs
    = ([WithDeadline 240; DialGRPC] ++ resumeLine cs ++ [Converse]
         ++ (if converseOk turn
             then [SendConfig (converseConfig cs); Log FailedToConnectToGoogleAssistant]
             else [Log FailedToSetupTheConversation]),
       cs, Blocked)).
  { cbn [start]. unfold runTurn. rewrite Hd. cbn [negb].
    destruct (converseOk turn); cbn [negb].
    - destruct Hfail as [Hc | Hs]; [discriminate |]. rewrite Hs. cbn [negb].
      unfold stop, andThen, done. destruct cs; reflexivity.
    - unfold stop, andThen, done. destruct cs; reflexivity. }
  rewrite Hrun. split; reflexivity.
Qed.

Lemma setup_failure_blocks_before_exit_witness :
  start [noConfigSentTurn; healthyTurn [RecvEOF]] [x2a]
  = ([WithDeadline 240; DialGRPC] ++ resumeLine [x2a] ++ [Converse]
       ++ (if converseOk noConfigSentTurn
           then [SendConfig (converseConfig [x2a]); Log FailedToConnectToGoogleAssistant]
           else [Log FailedToSetupTheConversation]),
     [x2a], Blocked)
  /\ exitStatus (outcomeOf (start [noConfigSentTurn; healthyTurn [RecvEOF]] [x2a])) = None.
Proof.
  apply (setup_failure_blocks_before_exit noConfigSentTurn [healthyTurn [RecvEOF]] [x2a]).
  - reflexivity.
  - right. reflexivity.
Defined.

(** ** The main flow: from Turn to Turn *)

Lemma outcomeOf_andThen_blank (r : Run) :
  outcomeOf (andThen r (done [Log BlankLine] Returned)) = outcomeOf r
  /\ stateOf (andThen r (done [Log BlankLine] Returned)) = stateOf r.
Proof.
  destruct r as [[t cs] o]. unfold andThen, done, outcomeOf, stateOf.
  destruct o; split; reflexivity.
Qed.

(** X10. A Turn that ends at the prompt ends the way the Turn started from
    the prompt ends, and leaves the stored token that Turn leaves: [start]
    calls itself through [stop] and [askTheUser], and so the exit code of a
    later Turn, or its blocking, is that of the whole run. *)
Theorem prompted_turn_ends_as_next_turn :
  forall (turn : Turn) (later : list Turn) (cs : list byte) (t : Trace) (s : Proc),
    setupOk turn ->
    micAlive turn = true ->
    receiveLoop (writeOk turn) (recvs turn) (freshProc cs) = (t, s, Ended StopPrompt) ->
    outcomeOf (start (turn :: later) cs) = outcomeOf (start later (conversationState s))
    /\ stateOf (start (turn :: later) cs) = stateOf (start later (conversationState s))
    /\ exists tail,
         traceOf (start (turn :: later) cs)
         = preamble cs ++ t ++ [MicStop; Cancel; PressEnter]
           ++ traceOf (start later (conversationState s)) ++ tail.
Proof.
  intros turn later cs t s Hsetup Hmic Hloop.
  rewrite (start_prompted turn later cs Hsetup Hmic t s Hloop).
  rewrite andThen_done.
  destruct (outcomeOf_andThen_blank (start later (conversationState s))) as [Ho Hs].
  destruct (traceOf_andThen (start later (conversationState s))
              (done [Log BlankLine] Returned)) as [tail Htail].
  split; [exact Ho | split; [exact Hs |]].
  exists tail. unfold traceOf at 1. cbn [fst]. rewrite Htail, <- !app_assoc. reflexivity.
Qed.

Lemma prompted_turn_ends_as_next_turn_witness :
  outcomeOf (start [healthyTurn [RecvMsg helloThenClose]; healthyTurn [RecvMsg quitEvent]] [])
  = outcomeOf (start [healthyTurn [RecvMsg quitEvent]]
                 (conversationState (freshProc [x2a])))
  /\ stateOf (start [healthyTurn [RecvMsg helloThenClose]; healthyTurn [RecvMsg quitEvent]] [])
     = stateOf (start [healthyTurn [RecvMsg quitEvent]]
                  (conversationState (freshProc [x2a])))
  /\ exists tail,
       traceOf (start [healthyTurn [RecvMsg helloThenClose];
                       healthyTurn [RecvMsg quitEvent]] [])
       = preamble []
         ++ (resultLines (resultOf "hello" (Some [x2a]) CLOSE_MICROPHONE)
               ++ [Log (Transcript "hello"); Log MicrophoneClosed])
         ++ [MicStop; Cancel; PressEnter]
         ++ traceOf (start [healthyTurn [RecvMsg quitEvent]]
                       (conversationState (freshProc [x2a])))
         ++ tail.
Proof.
  apply (prompted_turn_ends_as_next_turn
           (healthyTurn [RecvMsg helloThenClose]) [healthyTurn [RecvMsg quitEvent]] []
           (resultLines (resultOf "hello" (Some [x2a]) CLOSE_MICROPHONE)
              ++ [Log (Transcript "hello"); Log MicrophoneClosed])
           (freshProc [x2a])).
  - repeat split.
  - reflexivity.
  - reflexivity.
Defined.

(** ** The main flow: the order of stop signal, cancellation, prompt and Turn *)

Lemma inOrder_app (t1 t2 : Trace) :
  forall before,
    inOrder before (t1 ++ t2) = inOrder before t1 && inOrder (rev t1 ++ before) t2.
Proof.
  induction t1 as [| e t1 IH]; intros before; [reflexivity |].
  cbn [app inOrder rev]. rewrite IH, <- app_assoc, andb_assoc. reflexivity.
Qed.

Lemma inOrder_unmarked (t : Trace) :
  forall before, forallb unmarked t = true -> inOrder before t = true.
Proof.
  induction t as [| e t IH]; intros before Hun; [reflexivity |].
  cbn [forallb] in Hun. apply andb_true_iff in Hun as [He Ht].
  cbn [inOrder]. rewrite (IH _ Ht), andb_true_r.
  destruct e; try discriminate; reflexivity.
Qed.

Lemma allLocal_unmarked (t : Trace) : allLocal t -> forallb unmarked t = true.
Proof.
  unfold allLocal. intros Hloc. apply forallb_forall. intros e Hin.
  rewrite forallb_forall in Hloc. specialize (Hloc e Hin).
  destruct e; try discriminate; reflexivity.
Qed.

Lemma inOrder_sound (t : Trace) :
  forall before t1 e t2,
    inOrder before t = true ->
    t = t1 ++ e :: t2 ->
    okAfter (rev t1 ++ before) e = true.
Proof.
  intros before t1 e t2 Hord ->.
  rewrite inOrder_app in Hord. apply andb_true_iff in Hord as [_ Hord].
  cbn [inOrder] in Hord. now apply andb_true_iff in Hord as [Hok _].
Qed.

(** The trace of one call of [start]: the Turn's own effects, then nothing,
    or [stop(true)], or [stop(false)] with the call made from the prompt. *)
Lemma start_shape (turn : Turn) (later : list Turn) (cs : list byte) :
  exists q,
    (traceOf (start (turn :: later) cs) = WithDeadline 240 :: q
     \/ traceOf (start (turn :: later) cs) = WithDeadline 240 :: q ++ [MicStop; Cancel]
     \/ exists cs' tail,
          forallb unmarked tail = true
          /\ traceOf (start (turn :: later) cs)
             = WithDeadline 240 :: q ++ [MicStop; Cancel; PressEnter]
               ++ traceOf (start later cs') ++ tail)
    /\ forallb unmarked q = true.
Proof.
  destruct (dialOk turn) eqn:Hd.
  2: { exists [DialGRPC; Log FailedToAcquireConnection]. split; [left | reflexivity].
       cbn [start]. unfold runTurn. rewrite Hd. reflexivity. }
  destruct (converseOk turn) eqn:Hc.
  2: { exists (DialGRPC :: resumeLine cs ++ [Converse; Log FailedToSetupTheConversation]).
       split; [left | destruct cs; reflexivity].
       cbn [start]. unfold runTurn. rewrite Hd, Hc. cbn [negb].
       unfold stop, andThen, done. destruct cs; reflexivity. }
  destruct (sendOk turn) eqn:Hs.
  2: { exists (DialGRPC :: resumeLine cs
                 ++ [Converse; SendConfig (converseConfig cs);
                     Log FailedToConnectToGoogleAssistant]).
       split; [left | destruct cs; reflexivity].
       cbn [start]. unfold runTurn. rewrite Hd, Hc, Hs. cbn [negb].
       unfold stop, andThen, done. destruct cs; reflexivity. }
  destruct (playback turn) eqn:Hp.
  2: { exists (DialGRPC :: resumeLine cs
                 ++ [Converse; SendConfig (converseConfig cs); GoCapture; OpenPlayback]).
       split; [left | destruct cs; reflexivity].
       cbn [start]. unfold runTurn. rewrite Hd, Hc, Hs, Hp. cbn [negb].
       unfold done. destruct cs; reflexivity. }
  2: { exists (DialGRPC :: resumeLine cs
                 ++ [Converse; SendConfig (converseConfig cs); GoCapture; OpenPlayback;
                     Log FailedToStartAudioOut]).
       split; [left | destruct cs; reflexivity].
       cbn [start]. unfold runTurn. rewrite Hd, Hc, Hs, Hp. cbn [negb].
       unfold done. destruct cs; reflexivity. }
  assert (Hsetup : setupOk turn) by (repeat split; assumption).
  pose proof (receiveLoop_local (writeOk turn) (recvs turn) (freshProc cs)) as Hlocal.
  destruct (receiveLoop (writeOk turn) (recvs turn) (freshProc cs)) as [[t s] [v |]] eqn:Hloop;
    cbn [fst] in Hlocal.
  2: { exists (DialGRPC :: resumeLine cs
                 ++ [Converse; SendConfig (converseConfig cs); GoCapture; OpenPlayback;
                     Log Listening] ++ t).
       split.
       - left. rewrite (start_receiving turn later cs Hsetup t s Hloop), preamble_eq.
         unfold traceOf. cbn [fst app]. rewrite <- !app_assoc. reflexivity.
       - cbn [forallb unmarked]. rewrite forallb_app, forallb_app.
         rewrite (allLocal_unmarked t Hlocal). destruct cs; reflexivity. }
  set (q := DialGRPC :: resumeLine cs
              ++ [Converse; SendConfig (converseConfig cs); GoCapture; OpenPlayback;
                  Log Listening] ++ t).
  assert (Hq : forallb unmarked q = true).
  { unfold q. cbn [forallb unmarked]. rewrite forallb_app, forallb_app.
    rewrite (allLocal_unmarked t Hlocal). destruct cs; reflexivity. }
  assert (Hhead : preamble cs ++ t = WithDeadline 240 :: q).
  { rewrite preamble_eq. unfold q. cbn [app]. rewrite <- !app_assoc. reflexivity. }
  rewrite (start_ended turn later cs Hsetup t s v Hloop), Hhead, andThen_done.
  unfold traceOf at 1 2 3. cbn [fst].
  destruct v; cbn [leaveLoop].
  - exists q. split; [left | exact Hq]. unfold done, traceOf. cbn [fst].
    now rewrite app_nil_r.
  - exists q. split; [left | exact Hq]. unfold done, traceOf. cbn [fst].
    now rewrite app_nil_r.
  - unfold stop. destruct (micAlive turn).
    + exists q. split; [right; left | exact Hq].
      rewrite andThen_done. unfold done, traceOf. cbn [fst app]. reflexivity.
    + exists q. split; [left | exact Hq]. unfold done, traceOf. cbn [fst].
      now rewrite app_nil_r.
  - destruct (micAlive turn).
    + exists (q ++ [MicStop]). split; [left | ].
      * unfold done, traceOf. cbn [fst app]. reflexivity.
      * rewrite forallb_app, Hq. reflexivity.
    + exists q. split; [left | exact Hq]. unfold done, traceOf. cbn [fst].
      now rewrite app_nil_r.
  - unfold stop, askTheUser. destruct (micAlive turn).
    + exists q. split; [right; right | exact Hq].
      rewrite !andThen_done. unfold traceOf at 1 2. cbn [fst].
      destruct (start later (conversationState s)) as [[t' cs'] o] eqn:Hnext.
      exists (conversationState s).
      destruct o;
        try (exists []; split; [reflexivity |];
             rewrite Hnext; unfold andThen, done, traceOf; cbn [fst app];
             rewrite ?app_nil_r; reflexivity).
      exists [Log BlankLine]. split; [reflexivity |].
      rewrite Hnext. unfold andThen, done, traceOf. cbn [fst app]. reflexivity.
    + exists q. split; [left | exact Hq]. unfold done, traceOf. cbn [fst].
      now rewrite app_nil_r.
  - exists q. split; [left | exact Hq]. unfold done, traceOf. cbn [fst].
    now rewrite app_nil_r.
Qed.

Lemma start_inOrder (world : list Turn) :
  forall cs before,
    startable before = true ->
    inOrder before (traceOf (start world cs)) = true.
Proof.
  induction world as [| turn later IH]; intros cs before Hstart; [reflexivity |].
  assert (Hfirst : okAfter before (WithDeadline 240) = true) by exact Hstart.
  destruct (start_shape turn later cs) as (q & [-> | [-> | (cs' & tail & Htail & ->)]] & Hq).
  - cbn [inOrder]. rewrite Hfirst, inOrder_unmarked by exact Hq. reflexivity.
  - cbn [inOrder]. rewrite Hfirst, inOrder_app, inOrder_unmarked by exact Hq. reflexivity.
  - cbn [inOrder]. rewrite Hfirst, inOrder_app, inOrder_unmarked by exact Hq.
    cbn [app inOrder okAfter andb].
    rewrite inOrder_app, IH by reflexivity.
    rewrite inOrder_unmarked by exact Htail. reflexivity.
Qed.

(** X11. In every run, whatever the environment: the prompt is issued only
    right after the stop signal to the capture task and the cancellation of
    the context, the context is cancelled only right after the stop signal,
    and a Turn is started either first of all or right after the prompt. *)
Theorem prompt_only_after_stop_and_cancel :
  forall (world : list Turn) (cs : list byte) (t1 t2 : Trace) (e : Effect),
    traceOf (start world cs) = t1 ++ e :: t2 ->
    (e = PressEnter -> exists t0, t1 = t0 ++ [MicStop; Cancel])
    /\ (e = Cancel -> exists t0, t1 = t0 ++ [MicStop])
    /\ (forall d, e = WithDeadline d -> t1 = [] \/ exists t0, t1 = t0 ++ [PressEnter]).
Proof.
  intros world cs t1 t2 e Htrace.
  pose proof (inOrder_sound _ [] t1 e t2 (start_inOrder world cs [] eq_refl) Htrace) as Hok.
  rewrite app_nil_r in Hok.
  assert (Hrev : t1 = rev (rev t1)) by (symmetry; apply rev_involutive).
  split; [| split].
  - intros ->. cbn [okAfter] in Hok.
    destruct (rev t1) as [| [] [| [] r]]; try discriminate.
    exists (rev r). rewrite Hrev. cbn [rev]. now rewrite <- app_assoc.
  - intros ->. cbn [okAfter] in Hok.
    destruct (rev t1) as [| [] r]; try discriminate.
    exists (rev r). rewrite Hrev. reflexivity.
  - intros d ->. cbn [okAfter] in Hok.
    destruct (rev t1) as [| [] r]; try discriminate.
    + left. rewrite Hrev. reflexivity.
    + right. exists (rev r). rewrite Hrev. reflexivity.
Qed.

Lemma prompt_only_after_stop_and_cancel_witness :
  (PressEnter = PressEnter ->
   exists t0,
     preamble []
       ++ resultLines (resultOf "hello" (Some [x2a]) CLOSE_MICROPHONE)
       ++ [Log (Transcript "hello"); Log MicrophoneClosed; MicStop; Cancel]
     = t0 ++ [MicStop; Cancel])
  /\ (PressEnter = Cancel ->
      exists t0,
        preamble []
          ++ resultLines (resultOf "hello" (Some [x2a]) CLOSE_MICROPHONE)
          ++ [Log (Transcript "hello"); Log MicrophoneClosed; MicStop; Cancel]
        = t0 ++ [MicStop])
  /\ (forall d, PressEnter = WithDeadline d ->
      preamble []
        ++ resultLines (resultOf "hello" (Some [x2a]) CLOSE_MICROPHONE)
        ++ [Log (Transcript "hello"); Log MicrophoneClosed; MicStop; Cancel]
      = []
      \/ exists t0,
           preamble []
             ++ resultLines (resultOf "hello" (Some [x2a]) CLOSE_MICROPHONE)
             ++ [Log (Transcript "hello"); Log MicrophoneClosed; MicStop; Cancel]
           = t0 ++ [PressEnter]).
Proof.
  apply (prompt_only_after_stop_and_cancel
           [healthyTurn [RecvMsg helloThenClose]; healthyTurn [RecvEOF]] []
           (preamble []
              ++ resultLines (resultOf "hello" (Some [x2a]) CLOSE_MICROPHONE)
              ++ [Log (Transcript "hello"); Log MicrophoneClosed; MicStop; Cancel])
           (traceOf (start [healthyTurn [RecvEOF]] [x2a]) ++ [Log BlankLine])
           PressEnter).
  reflexivity.
Defined.

(** ** The playback loop and a failing device *)

Section PlaybackFailureFacts.

Variable n : nat.
Variable writeOk : nat -> bool.
Hypothesis n_pos : 0 < n.

(** Whatever the device does, the loop writes a run of whole frames from
    the start of the payload. *)
Lemma playLoop_writes_prefix (fuel : nat) :
  forall signal k,
    List.length signal < fuel ->
    exists tr m,
      playLoop n writeOk fuel signal k = Some (tr, k + m)
      /\ m * (2 * n) <= List.length signal
      /\ playbackWrites tr = map (frameAt n signal) (seq 0 m).
Proof.
  induction fuel as [| fuel IH]; intros signal k Hlen; [lia |].
  cbn [playLoop].
  destruct (Nat.lt_ge_cases (List.length signal) (2 * n)) as [Hshort | Hfull].
  - rewrite (binaryRead_short n n_pos signal Hshort).
    exists [Log FailedToReadAudioOut], 0.
    split; [now rewrite Nat.add_0_r | split; [cbn; lia | reflexivity]].
  - rewrite (binaryRead_frame n n_pos signal Hfull).
    destruct (writeOk k).
    + destruct (IH (skipn (2 * n) signal) (S k)) as (tr & m & -> & Hm & Hw).
      { rewrite length_skipn. lia. }
      exists (PlaybackWrite (frameAt n signal 0) :: tr), (S m).
      rewrite length_skipn in Hm.
      split; [f_equal; f_equal; lia | split; [cbn [Nat.mul]; lia |]].
      cbn [playbackWrites seq map]. rewrite Hw. f_equal.
      rewrite <- seq_shift, map_map. apply map_ext. intros i. apply (frameAt_skip n n_pos).
    + exists [PlaybackWrite (frameAt n signal 0); Log FailedToWriteToAudioOut], 1.
      split; [f_equal; f_equal; lia | split; [cbn [Nat.mul]; lia | reflexivity]].
Qed.

(** The first write that fails ends the loop. *)
Lemma playLoop_failed_write (m : nat) :
  forall signal fuel k,
    S m * (2 * n) <= List.length signal ->
    List.length signal < fuel ->
    (forall j, j < m -> writeOk (k + j) = true) ->
    writeOk (k + m) = false ->
    exists tr,
      playLoop n writeOk fuel signal k
      = Some (tr ++ [Log FailedToWriteToAudioOut], k + S m)
      /\ playbackWrites tr = map (frameAt n signal) (seq 0 (S m)).
Proof.
  induction m as [| m IH]; intros signal fuel k Hlen Hfuel Hok Hfail.
  - destruct fuel as [| fuel]; [lia |]. cbn [playLoop].
    rewrite (binaryRead_frame n n_pos signal) by lia.
    rewrite Nat.add_0_r in Hfail. rewrite Hfail.
    exists [PlaybackWrite (frameAt n signal 0)].
    split; [f_equal; f_equal; lia | reflexivity].
  - destruct fuel as [| fuel]; [lia |]. cbn [playLoop].
    rewrite (binaryRead_frame n n_pos signal) by lia.
    assert (Hk : writeOk k = true)
      by (rewrite <- (Nat.add_0_r k); apply Hok; lia).
    rewrite Hk.
    destruct (IH (skipn (2 * n) signal) fuel (S k)) as (tr & -> & Hw).
    + rewrite length_skipn. rewrite Nat.mul_succ_l in Hlen. lia.
    + rewrite length_skipn. lia.
    + intros j Hj. replace (S k + j) with (k + S j) by lia. apply Hok. lia.
    + replace (S k + m) with (k + S m) by lia. exact Hfail.
    + exists (PlaybackWrite (frameAt n signal 0) :: tr).
      split; [cbn [app]; f_equal; f_equal; lia |].
      cbn [playbackWrites]. rewrite Hw.
      change (seq 0 (S (S m))) with (0 :: seq 1 (S m)). cbn [map]. f_equal.
      rewrite <- seq_shift, map_map. apply map_ext. intros i. apply (frameAt_skip n n_pos).
Qed.

End PlaybackFailureFacts.

(** X12. Whatever the playback device does, an audio payload is played as
    a run of whole frames taken from its start, in order: never more frames
    than the payload holds, never a frame of fewer than 8192 samples, and
    never a frame out of place. The body then falls through to the
    microphone mode with the stored token as it was. *)
Theorem playback_writes_whole_frames_only :
  forall (writeOk : nat -> bool) (a : AudioOutData) (s : Proc),
    exists t m,
      playAudio writeOk (Some a) s
      = (t, {| conversationState := conversationState s; outWrites := outWrites s + m |},
         Next tt)
      /\ m * (2 * bufOutLen) <= List.length (AudioData a)
      /\ playbackWrites t = map (frameAt bufOutLen (AudioData a)) (seq 0 m)
      /\ (forall frame, In frame (playbackWrites t) -> List.length frame = bufOutLen).
Proof.
  intros writeOk a s.
  destruct (playLoop_writes_prefix bufOutLen writeOk bufOutLen_pos
              (S (List.length (AudioData a))) (AudioData a) (outWrites s))
    as (tr & m & Hrun & Hm & Hw); [lia |].
  exists (Log AudioOutFromTheAssistant :: tr), m.
  split; [| split; [exact Hm | split]].
  - cbn [playAudio]. flow. rewrite Hrun. reflexivity.
  - cbn [playbackWrites]. exact Hw.
  - cbn [playbackWrites]. rewrite Hw. intros frame Hin.
    apply in_map_iff in Hin as (i & <- & Hi). apply in_seq in Hi.
    apply frameAt_length.
    assert (Hle : S i * (2 * bufOutLen) <= m * (2 * bufOutLen))
      by (apply Nat.mul_le_mono_r; lia).
    lia.
Qed.

(** X13. When a write to the playback device fails, the playback of the
    payload stops there: the frames before it and the one whose write
    failed have been handed to the device, the failure is logged, and the
    rest of the payload is dropped. The event is not lost for the rest of
    the body, which goes on to the microphone mode. *)
Theorem playback_stops_at_failed_write :
  forall (writeOk : nat -> bool) (a : AudioOutData) (s : Proc) (m : nat),
    S m * (2 * bufOutLen) <= List.length (AudioData a) ->
    (forall j, j < m -> writeOk (outWrites s + j) = true) ->
    writeOk (outWrites s + m) = false ->
    exists t,
      playAudio writeOk (Some a) s
      = (t ++ [Log FailedToWriteToAudioOut],
         {| conversationState := conversationState s; outWrites := outWrites s + S m |},
         Next tt)
      /\ playbackWrites t = map (frameAt bufOutLen (AudioData a)) (seq 0 (S m)).
Proof.
  intros writeOk a s m Hlen Hok Hfail.
  destruct (playLoop_failed_write bufOutLen writeOk bufOutLen_pos m (AudioData a)
              (S (List.length (AudioData a))) (outWrites s) Hlen (Nat.lt_succ_diag_r _)
              Hok Hfail) as (tr & Hrun & Hw).
  exists (Log AudioOutFromTheAssistant :: tr). split.
  - cbn [playAudio]. flow. rewrite Hrun. reflexivity.
  - cbn [playbackWrites]. exact Hw.
Qed.

Lemma playback_stops_at_failed_write_witness :
  exists t,
    playAudio secondWriteFails (Some threeFrames) (freshProc [])
    = (t ++ [Log FailedToWriteToAudioOut],
       {| conversationState := conversationState (freshProc []);
          outWrites := outWrites (freshProc []) + 2 |},
       Next tt)
    /\ playbackWrites t = map (frameAt bufOutLen (AudioData threeFrames)) (seq 0 2).
Proof.
  apply (playback_stops_at_failed_write secondWriteFails threeFrames (freshProc []) 1).
  - apply Nat.leb_le. vm_compute. reflexivity.
  - intros j Hj. destruct j as [| j]; [reflexivity | lia].
  - reflexivity.
Defined.

(** ** The loop body and the environment *)

Lemma handleRecv_token_device_free (w1 w2 : nat -> bool) (r : Recv) (s1 s2 : Proc) :
  conversationState s1 = conversationState s2 ->
  conversationState (snd (fst (handleRecv w1 r s1)))
  = conversationState (snd (fst (handleRecv w2 r s2))).
Proof.
  intros Hcs.
  destruct r as [| err | resp]; [exact Hcs | exact Hcs |].
  destruct (Error resp) as [err |] eqn:Herr;
    [cbn [handleRecv]; rewrite Herr; exact Hcs |].
  destruct (Result resp) as [result |] eqn:Hres;
    [| cbn [handleRecv]; rewrite Herr, Hres; exact Hcs].
  assert (Hstore :
    conversationState (storeToken result s1) = conversationState (storeToken result s2))
    by (rewrite !storeToken_token; unfold tokenAfter;
        destruct (ConversationState result); [reflexivity | exact Hcs]).
  destruct (isQuit (SpokenRequestText result)) eqn:Hq.
  - cbn [handleRecv]. rewrite Herr, Hres, !handleResult_quit by exact Hq. exact Hcs.
  - destruct (isEndOfUtterance (Event resp)) eqn:He.
    + cbn [handleRecv].
      rewrite Herr, Hres, !handleResult_endOfUtterance
        by (try exact Hq; now apply isEndOfUtterance_true).
      exact Hstore.
    + destruct (handleRecv_through w1 resp result s1 Herr Hres Hq
                  (isEndOfUtterance_false _ He)) as (ta1 & k1 & _ & ->).
      destruct (handleRecv_through w2 resp result s2 Herr Hres Hq
                  (isEndOfUtterance_false _ He)) as (ta2 & k2 & _ & ->).
      exact Hstore.
Qed.

(** X14. How an event leaves the loop body, and the token stored after it,
    depend on the event and on the token stored before, not on the playback
    device: a payload that could not be played changes neither whether the
    Turn goes on nor what the next Turn resumes from. *)
Theorem playback_does_not_steer_the_loop :
  forall (w1 w2 : nat -> bool) (r : Recv) (s1 s2 : Proc),
    conversationState s1 = conversationState s2 ->
    snd (handleRecv w1 r s1) = snd (handleRecv w2 r s2)
    /\ conversationState (snd (fst (handleRecv w1 r s1)))
       = conversationState (snd (fst (handleRecv w2 r s2))).
Proof.
  intros w1 w2 r s1 s2 Hcs. split.
  - now rewrite !handleRecv_ctl.
  - now apply handleRecv_token_device_free.
Qed.

Lemma playback_does_not_steer_the_loop_witness :
  snd (handleRecv (fun _ => true) (RecvMsg helloCloseWithToken) (freshProc []))
  = snd (handleRecv (fun _ => false) (RecvMsg helloCloseWithToken)
           {| conversationState := []; outWrites := 5 |})
  /\ conversationState
       (snd (fst (handleRecv (fun _ => true) (RecvMsg helloCloseWithToken) (freshProc []))))
     = conversationState
         (snd (fst (handleRecv (fun _ => false) (RecvMsg helloCloseWithToken)
                      {| conversationState := []; outWrites := 5 |}))).
Proof.
  apply (playback_does_not_steer_the_loop (fun _ => true) (fun _ => false)
           (RecvMsg helloCloseWithToken) (freshProc [])
           {| conversationState := []; outWrites := 5 |}).
  reflexivity.
Defined.

(** X15. The stored token changes only through events that carry one, and
    the last of them wins: over a script without such an event the token
    stays what it was, and after an event that stores a token, followed only
    by events that carry none, the stored token is that event's, however
    the loop ends. *)
Theorem stored_token_is_last_one_received :
  forall (writeOk : nat -> bool) (recvs : list Recv) (s : Proc),
    (forallb (fun r => negb (storesToken r)) recvs = true ->
     conversationState (snd (fst (receiveLoop writeOk recvs s))) = conversationState s)
    /\ (forall pre post resp result token tpre spre,
          recvs = pre ++ RecvMsg resp :: post ->
          receiveLoop writeOk pre s = (tpre, spre, Receiving) ->
          Error resp = None ->
          Result resp = Some result ->
          isQuit (SpokenRequestText result) = false ->
          ConversationState result = Some token ->
          forallb (fun r => negb (storesToken r)) post = true ->
          conversationState (snd (fst (receiveLoop writeOk recvs s))) = token).
Proof.
  intros writeOk recvs s. split.
  - apply receiveLoop_keeps_token.
  - intros pre post resp result token tpre spre -> Hpre Herr Hres Hq Htok Hpost.
    rewrite (receiveLoop_app writeOk pre (RecvMsg resp :: post) _ _ _ Hpre).
    cbn [receiveLoop].
    pose proof (handleRecv_stores writeOk resp result token spre Herr Hres Hq Htok) as Hev.
    destruct (handleRecv writeOk (RecvMsg resp) spre) as [[t1 s1] [[] | v]];
      cbn [fst snd] in *.
    + pose proof (receiveLoop_keeps_token writeOk post s1 Hpost) as Hkeep.
      destruct (receiveLoop writeOk post s1) as [[t2 s2] e]. cbn [fst snd] in *. congruence.
    + exact Hev.
Qed.

Lemma stored_token_is_last_one_received_witness :
  conversationState (snd (fst (receiveLoop (fun _ => true) tokenScript (freshProc [x2a]))))
  = [x02].
Proof.
  apply (proj2 (stored_token_is_last_one_received (fun _ => true) tokenScript
                  (freshProc [x2a]))
               [RecvMsg (tokenFollowOn [x01])] [RecvMsg followOnEvent; RecvEOF]
               (tokenFollowOn [x02]) (resultOf "hello" (Some [x02]) DIALOG_FOLLOW_ON)
               [x02]
               (resultLines (resultOf "hello" (Some [x01]) DIALOG_FOLLOW_ON)
                  ++ [Log (Transcript "hello"); Log ContinuingDialog])
               (freshProc [x01])); reflexivity.
Defined.

(** ** Exit codes *)

Lemma receiveLoop_fatal_line (writeOk : nat -> bool) (recvs : list Recv) :
  forall s t s',
    receiveLoop writeOk recvs s = (t, s', Ended Fatal) ->
    exists t0 line, t = t0 ++ [Log line] /\ isFatalLine line = true.
Proof.
  induction recvs as [| r later IH]; intros s t s' Hrun; [discriminate |].
  cbn [receiveLoop] in Hrun.
  pose proof (handleRecv_ctl writeOk r s) as Hctl.
  destruct (handleRecv writeOk r s) as [[t1 s1] [[] | v]] eqn:Hbody; cbn [snd] in Hctl.
  - destruct (receiveLoop writeOk later s1) as [[t2 s2] e] eqn:Hrec.
    injection Hrun as <- <- ->.
    destruct (IH _ _ _ Hrec) as (t0 & line & -> & Hline).
    exists (t1 ++ t0), line. split; [now rewrite app_assoc | exact Hline].
  - injection Hrun as <- <- ->.
    destruct r as [| err | resp]; cbn [ctlOf] in Hctl; try discriminate.
    + cbn in Hbody. injection Hbody as <- _.
      exists [], (CannotGetAResponse err). split; reflexivity.
    + destruct (Error resp) as [err |] eqn:Herr.
      * cbn [handleRecv] in Hbody. rewrite Herr in Hbody. cbn in Hbody.
        injection Hbody as <- _.
        exists [], (ReceivedError err). split; reflexivity.
      * destruct (Result resp) as [result |]; [| discriminate].
        destruct (isQuit (SpokenRequestText result)); [discriminate |].
        destruct (isEndOfUtterance (Event resp)); [discriminate |].
        destruct (MicMode result); discriminate.
Qed.

Lemma start_exit_codes (world : list Turn) :
  forall cs c,
    outcomeOf (start world cs) = Exited c ->
    c = 0%Z
    \/ (c = 1%Z
        /\ exists t0 line,
             traceOf (start world cs) = t0 ++ [Log line] /\ isFatalLine line = true).
Proof.
  induction world as [| turn later IH]; intros cs c Hexit; [discriminate |].
  cbn [start] in *. unfold runTurn in *.
  destruct (dialOk turn); cbn [negb] in *; [| discriminate].
  destruct (converseOk turn); cbn [negb] in *; [| discriminate].
  destruct (sendOk turn); cbn [negb] in *; [| discriminate].
  destruct (playback turn); try discriminate.
  destruct (receiveLoop (writeOk turn) (recvs turn) (freshProc cs)) as [[t s] [v |]] eqn:Hloop;
    [| discriminate].
  rewrite andThen_done in *.
  unfold outcomeOf at 1 in Hexit. cbn [snd] in Hexit.
  unfold traceOf at 1. cbn [fst].
  match goal with
  | |- _ \/ (_ /\ exists _ _, ?h ++ _ = _ /\ _) => set (head := h)
  end.
  destruct v; cbn [leaveLoop] in *;
    try (unfold done, outcomeOf in Hexit; cbn [snd] in Hexit; discriminate Hexit).
  - (* log.Fatalf *)
    unfold done, outcomeOf in Hexit. cbn [snd] in Hexit. injection Hexit as <-.
    right. split; [reflexivity |].
    destruct (receiveLoop_fatal_line _ _ _ _ _ Hloop) as (t0 & line & Ht & Hline).
    exists ((([WithDeadline 240; DialGRPC]
                ++ (if (0 <? List.length cs)%nat then [Log ContinuingConversation] else [])
                ++ [Converse])
               ++ [SendConfig (converseConfig cs); GoCapture; OpenPlayback])
            ++ [Log Listening] ++ t0), line.
    split; [| exact Hline].
    subst head t. unfold done, traceOf. cbn [fst].
    rewrite app_nil_r, <- !app_assoc. reflexivity.
  - (* stop(true) *)
    unfold stop in *. destruct (micAlive turn);
      [| unfold done, outcomeOf in Hexit; cbn [snd] in Hexit; discriminate Hexit].
    rewrite andThen_done in Hexit. unfold done, outcomeOf in Hexit. cbn [snd] in Hexit.
    injection Hexit as <-. now left.
  - (* micStopCh <- true; return *)
    destruct (micAlive turn);
      unfold done, outcomeOf in Hexit; cbn [snd] in Hexit; discriminate Hexit.
  - (* stop(false) *)
    unfold stop, askTheUser in *. destruct (micAlive turn);
      [| unfold done, outcomeOf in Hexit; cbn [snd] in Hexit; discriminate Hexit].
    rewrite !andThen_done in *. unfold outcomeOf at 1 2 in Hexit. cbn [snd] in Hexit.
    apply andThen_tail_exit in Hexit as [Hexit Hsame].
    destruct (IH _ _ Hexit) as [-> | (-> & t0 & line & Ht0 & Hline)]; [now left |].
    right. split; [reflexivity |].
    exists (head ++ [MicStop; Cancel] ++ [PressEnter] ++ t0), line.
    split; [| exact Hline].
    unfold traceOf at 1 2. cbn [fst]. rewrite Hsame, Ht0.
    rewrite <- !app_assoc. reflexivity.
Qed.

(** X16. The process exits with no other code than 0 and 1, and with code 1
    only through [log.Fatalf] on a failed receive: the last thing a run that
    exits with 1 has done is to log the receive failure. The two
    [os.Exit(1)] of the setup paths are never the way out. *)
Theorem exit_code_one_only_on_receive_failure :
  forall (world : list Turn) (cs : list byte) (c : Z),
    outcomeOf (start world cs) = Exited c ->
    (c = 0%Z \/ c = 1%Z)
    /\ (c = 1%Z ->
        exists t0 line,
          traceOf (start world cs) = t0 ++ [Log line] /\ isFatalLine line = true).
Proof.
  intros world cs c Hexit.
  destruct (start_exit_codes world cs c Hexit) as [-> | (-> & Hline)].
  - split; [now left | discriminate].
  - split; [now right | intros _; exact Hline].
Qed.

Lemma exit_code_one_only_on_receive_failure_witness :
  (1 = 0 \/ 1 = 1)%Z
  /\ (1%Z = 1%Z ->
      exists t0 line,
        traceOf (start [healthyTurn [RecvMsg helloThenClose];
                        healthyTurn [RecvMsg (errorEvent "x")]] [])
        = t0 ++ [Log line] /\ isFatalLine line = true).
Proof.
  apply (exit_code_one_only_on_receive_failure
           [healthyTurn [RecvMsg helloThenClose]; healthyTurn [RecvMsg (errorEvent "x")]]
           [] 1%Z).
  reflexivity.
Defined.

(** ** What reaches the playback device *)

Lemma playAudio_writes_are_frames (writeOk : nat -> bool) (audioOut : option AudioOutData)
  (s : Proc) (frame : list Z) :
  In frame (playbackWrites (fst (fst (playAudio writeOk audioOut s)))) ->
  exists a i,
    audioOut = Some a
    /\ frame = frameAt bufOutLen (AudioData a) i
    /\ S i * (2 * bufOutLen) <= List.length (AudioData a).
Proof.
  destruct audioOut as [a |]; [| contradiction].
  destruct (playLoop_writes_prefix bufOutLen writeOk bufOutLen_pos
              (S (List.length (AudioData a))) (AudioData a) (outWrites s))
    as (tr & m & Hrun & Hm & Hw); [lia |].
  cbn [playAudio]. flow. rewrite Hrun. cbn [fst app playbackWrites]. rewrite Hw.
  intros Hin. apply in_map_iff in Hin as (i & <- & Hi). apply in_seq in Hi.
  exists a, i. split; [reflexivity | split; [reflexivity |]].
  assert (Hle : S i * (2 * bufOutLen) <= m * (2 * bufOutLen))
    by (apply Nat.mul_le_mono_r; lia).
  lia.
Qed.

Lemma handleRecv_writes_are_frames (writeOk : nat -> bool) (r : Recv) (s : Proc)
  (frame : list Z) :
  In frame (playbackWrites (fst (fst (handleRecv writeOk r s)))) ->
  exists a i,
    frame = frameAt bufOutLen (AudioData a) i
    /\ S i * (2 * bufOutLen) <= List.length (AudioData a).
Proof.
  destruct r as [| err | resp]; [contradiction | contradiction |].
  destruct (Error resp) as [err |] eqn:Herr;
    [cbn [handleRecv]; rewrite Herr; contradiction |].
  destruct (Result resp) as [result |] eqn:Hres;
    [| cbn [handleRecv]; rewrite Herr, Hres; contradiction].
  destruct (playbackWrites_lines result) as (Hl1 & Hl2 & Hl3).
  destruct (isQuit (SpokenRequestText result)) eqn:Hq.
  - cbn [handleRecv]. rewrite Herr, Hres, handleResult_quit by exact Hq.
    cbn [fst]. rewrite playbackWrites_app, Hl1. contradiction.
  - destruct (isEndOfUtterance (Event resp)) eqn:He.
    + cbn [handleRecv].
      rewrite Herr, Hres, handleResult_endOfUtterance
        by (try exact Hq; now apply isEndOfUtterance_true).
      cbn [fst]. rewrite !playbackWrites_app, Hl1, Hl2, Hl3. contradiction.
    + destruct (handleRecv_through writeOk resp result s Herr Hres Hq
                  (isEndOfUtterance_false _ He)) as (ta & k & Ha & ->).
      cbn [fst]. rewrite !playbackWrites_app, Hl1, Hl2, Hl3.
      cbn [playbackWrites app]. rewrite app_nil_r. intros Hin.
      pose proof (playAudio_writes_are_frames writeOk (AudioOutField resp)
                    (storeToken result s) frame) as Hframes.
      rewrite Ha in Hframes. cbn [fst] in Hframes.
      destruct (Hframes Hin) as (a & i & _ & Hframe & Hlen).
      exists a, i. split; assumption.
Qed.

(** X3. Whatever the events and the playback device do, every write the
    receive loop makes to the device hands it a full buffer: exactly 8192
    samples, each a signed 16-bit value. *)
Theorem playback_writes_are_full_int16_buffers :
  forall (writeOk : nat -> bool) (recvs : list Recv) (s : Proc) (frame : list Z),
    In frame (playbackWrites (fst (fst (receiveLoop writeOk recvs s)))) ->
    List.length frame = bufOutLen /\ Forall isInt16 frame.
Proof.
  intros writeOk recvs. induction recvs as [| r later IH]; intros s frame Hin;
    [contradiction |].
  cbn [receiveLoop] in Hin.
  pose proof (handleRecv_writes_are_frames writeOk r s frame) as Hhere.
  destruct (handleRecv writeOk r s) as [[t1 s1] [[] | v]]; cbn [fst] in *.
  - specialize (IH s1 frame).
    destruct (receiveLoop writeOk later s1) as [[t2 s2] e]. cbn [fst] in *.
    rewrite playbackWrites_app in Hin. apply in_app_or in Hin as [Hin | Hin].
    + destruct (Hhere Hin) as (a & i & -> & Hlen).
      split; [now apply frameAt_length | apply decoded_samples_fit_int16].
    + now apply IH.
  - destruct (Hhere Hin) as (a & i & -> & Hlen).
    split; [now apply frameAt_length | apply decoded_samples_fit_int16].
Qed.

Lemma playback_writes_are_full_int16_buffers_witness :
  List.length (frameAt bufOutLen (AudioData oneFrame) 0) = bufOutLen
  /\ Forall isInt16 (frameAt bufOutLen (AudioData oneFrame) 0).
Proof.
  apply (playback_writes_are_full_int16_buffers
           (fun _ => true) [RecvMsg nilResultEvent; RecvMsg oneFrameFollowOn]
           (freshProc []) (frameAt bufOutLen (AudioData oneFrame) 0)).
  vm_compute. left. reflexivity.
Defined.
